(** * PostgreSQL startup handshake of the database proxy

    A shallow embedding of [PostgresHandler.Handshake],
    [rebuildStartupMessage] (package [postgresql]) and of the startup
    forwarding step of [Server.handleConnection] (package [core]),
    together with the properties of the startup codec, the tenant address
    parser and the replay bytes.

    Conventions.
    - A Go [[]byte] is a [list byte]; a Go [string] is a [string] (a
      sequence of 8-bit characters); [string(b)] and [[]byte(s)] are
      [string_of_list_byte] and [list_byte_of_string].
    - A Go [int] that holds a length or an offset is a [nat]; the value of
      a length field or of a protocol code is a [Z], and the [uint32] and
      [int32] conversions are written out with their wrap-around.
    - A write out of the bounds of a slice is a run-time panic: the
      operations on slices return an [option].
    - The recursion of [Handshake] on the upgraded connection is bounded by
      fuel; a run that needs more is [OutOfFuel].
    - A [map[string]string] is a [gmap string string].  The order in which
      a [range] statement visits a map is not specified by Go: every
      [range] loop takes the order from an oracle that is only known to
      enumerate the map. *)

From Stdlib Require Import ZArith Lia List.
From Stdlib Require Import Strings.String Strings.Ascii Strings.Byte.
From stdpp Require Import gmap strings list fin_maps.
From Equations Require Import Equations.

Local Open Scope string_scope.
Local Open Scope list_scope.
Local Open Scope Z_scope.

(** ** Machine integers and [encoding/binary] *)

Module Word.

(** [uint32(n)] for a Go integer [n]. *)
Definition uint32 (n : Z) : Z := n mod 2 ^ 32.

(** [int32(n)]: the low 32 bits read as two's complement. *)
Definition int32 (n : Z) : Z :=
  let u := n mod 2 ^ 32 in
  if u <? 2 ^ 31 then u else u - 2 ^ 32.

(** [byte(n)]: the low 8 bits. *)
Definition byte_of_Z (n : Z) : byte :=
  match Byte.of_N (Z.to_N (n mod 256)) with
  | Some b => b
  | None => x00
  end.

Definition Z_of_byte (b : byte) : Z := Z.of_N (Byte.to_N b).

(** [binary.BigEndian.Uint32(b)]:
    [uint32(b[3]) | uint32(b[2])<<8 | uint32(b[1])<<16 | uint32(b[0])<<24].
    Go panics on a slice shorter than four bytes; every call site passes
    exactly four bytes (the header filled by [io.ReadFull], and
    [payload[0:4]] under [len(payload) >= 4]). *)
Definition BigEndian_Uint32 (b : list byte) : Z :=
  match b with
  | b0 :: b1 :: b2 :: b3 :: _ =>
      Z.lor (Z.lor (Z.lor (Z_of_byte b3) (Z.shiftl (Z_of_byte b2) 8))
                   (Z.shiftl (Z_of_byte b1) 16))
            (Z.shiftl (Z_of_byte b0) 24)
  | _ => 0
  end.

(** The four bytes [binary.BigEndian.PutUint32] stores for [v]:
    [byte(v>>24); byte(v>>16); byte(v>>8); byte(v)]. *)
Definition BigEndian_PutUint32 (v : Z) : list byte :=
  [byte_of_Z (Z.shiftr v 24); byte_of_Z (Z.shiftr v 16);
   byte_of_Z (Z.shiftr v 8); byte_of_Z v].

End Word.
Export Word.

(** ** Connections *)

(** A [net.Conn] as the handshake sees it: the bytes the peer sends before
    it closes its side, the bytes written to it so far, and whether the
    next [Write] on it succeeds.  Between the two writes that [Handshake]
    makes on one connection the TLS library acts on it, and gives its
    state anew: the second write can fail after the first succeeded. *)
Record Conn : Type := mkConn {
  inbound : list byte;
  outbound : list byte;
  writable : bool
}.

(** [io.ReadFull(conn, buf)] with [len(buf) = n], and the connection
    after the call: exactly [n] bytes, or an error ([io.EOF] /
    [io.ErrUnexpectedEOF]) when the peer closes first; the bytes the peer
    sent before it closed have then been read all the same. *)
Definition io_ReadFull (conn : Conn) (n : nat) : option (list byte) * Conn :=
  if decide (n ≤ length (inbound conn))%nat then
    (Some (take n (inbound conn)),
     mkConn (drop n (inbound conn)) (outbound conn) (writable conn))
  else (None, mkConn [] (outbound conn) (writable conn)).

(** [conn.Write(b)]: all of [b] is sent, or the write fails ([None]); what
    a write that fails has sent of [b] is not recorded. *)
Definition conn_Write (conn : Conn) (b : list byte) : option Conn :=
  if writable conn then
    Some (mkConn (inbound conn) (outbound conn ++ b) (writable conn))
  else None.

(** ** [bytes] and [strings] *)

(** [bytes.IndexByte(b, c)]; [None] stands for Go's [-1]. *)
Fixpoint bytes_IndexByte (b : list byte) (c : byte) : option nat :=
  match b with
  | [] => None
  | x :: b' =>
      if Byte.eqb x c then Some 0%nat else S <$> bytes_IndexByte b' c
  end.

(** The only error a [bytes.Buffer] read returns. *)
Inductive ioError : Type := io_EOF.

(** [Buffer.ReadString(delim)] of package [bytes] on a buffer whose unread part is
    [buf]: the data up to and including the first [delim], or, when there
    is none, all the unread data together with [io.EOF].  The third
    component is the unread part afterwards. *)
Definition Buffer_ReadString (buf : list byte) (delim : byte)
  : string * option ioError * list byte :=
  match bytes_IndexByte buf delim with
  | Some i => (string_of_list_byte (take (S i) buf), None, drop (S i) buf)
  | None => (string_of_list_byte buf, Some io_EOF, [])
  end.

(** [s[:len(s)-1]] *)
Definition trimLast (s : string) : string :=
  String.substring 0 (String.length s - 1) s.

(** [strings.Split(s, sep)] for a separator of one byte (the handshake
    only splits on ["."]). *)
Fixpoint strings_Split (s : string) (sep : ascii) : list string :=
  match s with
  | EmptyString => [EmptyString]
  | String c s' =>
      if Ascii.eqb c sep then EmptyString :: strings_Split s' sep
      else match strings_Split s' sep with
           | p :: ps => String c p :: ps
           | [] => [String c EmptyString]
           end
  end.

(** [strings.Join(elems, sep)] *)
Definition strings_Join (elems : list string) (sep : string) : string :=
  String.concat sep elems.

(** [elems[i]] where the index is in range by a preceding length test. *)
Definition index (elems : list string) (i : nat) : string := nth i elems "".

(** ** Slices written in place

    [None] is a run-time panic (index or slice bounds out of range). *)

(** [copy(dst[off:], src)] *)
Definition slice_copy (dst : list byte) (off : nat) (src : list byte)
  : option (list byte) :=
  if decide (off ≤ length dst)%nat then
    let n := Nat.min (length dst - off) (length src) in
    Some (take off dst ++ take n src ++ drop (off + n) dst)
  else None.

(** [dst[i] = x] *)
Definition slice_set (dst : list byte) (i : nat) (x : byte)
  : option (list byte) :=
  if decide (i < length dst)%nat then Some (<[i := x]> dst) else None.

(** [binary.BigEndian.PutUint32(dst[lo:hi], v)] *)
Definition slice_PutUint32 (dst : list byte) (lo hi : nat) (v : Z)
  : option (list byte) :=
  if decide (lo ≤ hi ≤ length dst ∧ 4 ≤ hi - lo)%nat then
    Some (take lo dst ++ BigEndian_PutUint32 v ++ drop (lo + 4) dst)
  else None.

(** ** The handshake *)

Definition sslRequestCode : Z := 80877103.

Inductive HandshakeError : Type :=
| ErrReadLength                 (* failed to read message length *)
| ErrInvalidLength (length : Z) (* invalid message length: %d *)
| ErrReadBody                   (* failed to read message body *)
| ErrWriteSSL                   (* failed to write SSL response *)
| ErrTLSHandshake               (* tls handshake failed *)
| ErrPayloadTooShort            (* payload too short *)
| ErrMalformedStartup.          (* malformed startup message *)

(** What a call of [Handshake] comes to: the metadata and the connection
    to relay on, an error (with the connection as the failure leaves it), a
    run-time panic, or recursion deeper than the fuel. *)
Inductive Result : Type :=
| Done (metadata : gmap string string) (conn : Conn)
| Failed (err : HandshakeError) (conn : Conn)
| Panic
| OutOfFuel.

(** *** Reading one frame (lines 60-75) *)

Inductive Frame : Type :=
| FrameRead (header payload : list byte) (conn : Conn)
| FrameError (err : HandshakeError) (conn : Conn).

Definition readFrame (conn : Conn) : Frame :=
  match io_ReadFull conn 4 with
  | (None, conn) => FrameError ErrReadLength conn
  | (Some header, conn) =>
      let length := int32 (BigEndian_Uint32 header) in
      if length <? 4 then FrameError (ErrInvalidLength length) conn
      else
        match io_ReadFull conn (Z.to_nat (length - 4)) with
        | (None, conn) => FrameError ErrReadBody conn
        | (Some payload, conn) => FrameRead header payload conn
        end
  end.

(** *** The SSLRequest test (lines 78-80) *)

Definition isSSLRequest (payload : list byte) : bool :=
  if decide (4 ≤ length payload)%nat then
    let code := int32 (BigEndian_Uint32 (take 4 payload)) in
    code =? sslRequestCode
  else false.

(** *** The parameter loop (lines 108-132) *)

Inductive LoopStep : Type :=
| Break
| Return (err : HandshakeError)
| Next (buf : list byte) (params : gmap string string).

(** One pass through the body of the [for] loop.  [ReadString] of a
    [bytes.Buffer] returns no error other than [io.EOF], so the
    [err != nil] test that follows the [io.EOF] test never fires. *)
Definition loopBody (buf : list byte) (params : gmap string string)
  : LoopStep :=
  match Buffer_ReadString buf x00 with
  | (_, Some io_EOF, _) => Break
  | (key, None, buf) =>
      let key := trimLast key in
      if String.eqb key "" then Break
      else
        match Buffer_ReadString buf x00 with
        | (_, Some _, _) => Return ErrMalformedStartup
        | (value, None, buf) =>
            let value := trimLast value in
            Next buf (<[key := value]> params)
        end
  end.

Lemma bytes_IndexByte_lt b c i :
  bytes_IndexByte b c = Some i → (i < length b)%nat.
Proof.
  revert i. induction b as [|x b IH]; intros i; simpl; [done|].
  destruct (Byte.eqb x c); [intros [= <-]; lia|].
  destruct (bytes_IndexByte b c) as [j|]; [|done].
  intros [= <-]. specialize (IH j eq_refl). lia.
Qed.

Lemma Buffer_ReadString_shrinks buf delim line rest :
  Buffer_ReadString buf delim = (line, None, rest) →
  (length rest < length buf)%nat.
Proof.
  unfold Buffer_ReadString.
  destruct (bytes_IndexByte buf delim) as [i|] eqn:Hi; [|done].
  intros [= _ <-]. apply bytes_IndexByte_lt in Hi.
  rewrite length_drop. lia.
Qed.

Lemma loopBody_shrinks buf params buf' params' :
  loopBody buf params = Next buf' params' →
  (length buf' < length buf)%nat.
Proof.
  unfold loopBody.
  destruct (Buffer_ReadString buf x00) as [[key [[]|]] buf1] eqn:Hk; [done|].
  destruct (String.eqb _ _); [done|].
  destruct (Buffer_ReadString buf1 x00) as [[value [[]|]] buf2] eqn:Hv; [done|].
  intros [= <- _].
  apply Buffer_ReadString_shrinks in Hk, Hv. lia.
Qed.

Definition inspect {A : Type} (a : A) : {b : A | a = b} := exist _ a eq_refl.

(** The [for] loop over the buffer that holds [payload[4:]]. *)
Equations parseParams (buf : list byte) (params : gmap string string)
  : HandshakeError + gmap string string by wf (length buf) lt :=
  parseParams buf params with inspect (loopBody buf params) := {
    | exist _ Break _ := inr params
    | exist _ (Return err) _ := inl err
    | exist _ (Next buf' params') Hstep := parseParams buf' params'
  }.
Next Obligation. eapply loopBody_shrinks; eassumption. Qed.

(** *** The tenant address in the user name (lines 134-157)

    Format: [username.deployment_id[.pool]]. *)

Definition parseUsername (params : gmap string string)
  : gmap string string :=
  match params !! "user" with
  | Some user =>
      let parts := strings_Split user "." in
      let n := length parts in
      if decide (2 ≤ n)%nat then
        if String.eqb (index parts (n - 1)) "pool" then
          let params := <["pooled" := "true"]> params in
          if decide (3 ≤ n)%nat then
            let params := <["deployment_id" := index parts (n - 2)]> params in
            <["username" := strings_Join (take (n - 2) parts) "."]> params
          else params
        else
          let params := <["pooled" := "false"]> params in
          let params := <["deployment_id" := index parts (n - 1)]> params in
          <["username" := strings_Join (take (n - 1) parts) "."]> params
      else <["pooled" := "false"]> params
  | None => params
  end.

(** *** The body of the second loop of [rebuildStartupMessage]
    (lines 238-247): one pair written at [offset]. *)

Definition writePair (state : list byte * nat) (kv : string * string)
  : option (list byte * nat) :=
  let '(newMessage, offset) := state in
  let '(key, value) := kv in
  newMessage ← slice_copy newMessage offset (list_byte_of_string key);
  let offset := (offset + String.length key)%nat in
  newMessage ← slice_set newMessage offset x00;
  let offset := S offset in
  newMessage ← slice_copy newMessage offset (list_byte_of_string value);
  let offset := (offset + String.length value)%nat in
  newMessage ← slice_set newMessage offset x00;
  let offset := S offset in
  Some (newMessage, offset).

(** ** The engine around the handshake

    What the handshake does not decide itself: the order in which each
    [range] statement visits a map, the TLS library, the resolver and the
    dialer. *)

Section Engine.

(** [range site m] is the order in which the [range] statement numbered
    [site] visits the entries of [m]. *)
Variable range : nat → gmap string string → list (string * string).
Hypothesis range_enumerates : ∀ site m, range site m ≡ₚ map_to_list m.

(** [tls.Server(conn, h.TLSConfig)] followed by [Handshake()].  The TLS
    library reads from [conn] and writes to it.  When the handshake fails
    the outcome is the text of the error and [conn] as the library leaves
    it: what it has read is consumed, what it has written (an alert) is
    sent, and the next write may fail.  Otherwise the outcome is the
    connection that carries the decrypted stream. *)
Variable tlsServerHandshake : Conn → string * Conn + Conn.

(** [Resolver.Resolve] and [net.Dial]. *)
Variable Resolve : gmap string string → option string.
Variable Dial : string → option Conn.

(** *** [rebuildStartupMessage] (lines 225-250) *)

Definition rebuildStartupMessage (protocolVersion : Z)
    (params : gmap string string) : option (list byte) :=
  (* Calculate total length needed *)
  let totalLength := (4 + 4)%nat in
  let totalLength :=
    foldl (λ totalLength '(key, value),
             (totalLength + (String.length key + 1 + String.length value + 1))%nat)
          totalLength (range 1 params) in
  let totalLength := S totalLength in
  let newMessage := replicate totalLength x00 in
  newMessage ← slice_PutUint32 newMessage 0 4 (uint32 (Z.of_nat totalLength));
  newMessage ← slice_PutUint32 newMessage 4 8 protocolVersion;
  let offset := 8%nat in
  '(newMessage, offset) ←
    foldl (λ state kv, state ≫= λ state, writePair state kv)
          (Some (newMessage, offset)) (range 2 params);
  slice_set newMessage offset x00.

(** *** The replay bytes (lines 167-220) *)

(** The [v, ok := m[k]] form of a map lookup. *)
Definition commaOk (o : option string) : string * bool :=
  match o with
  | Some v => (v, true)
  | None => ("", false)
  end.

Definition storeReplay (header payload : list byte)
    (params : gmap string string) : option (gmap string string) :=
  let '(originalUser, ok) := commaOk (params !! "user") in
  if ok then
    let '(newUser, ok) := commaOk (params !! "username") in
    if ok && bool_decide (newUser ≠ originalUser) then
      (* We modified the username: rebuild the startup message *)
      let protocolVersion := BigEndian_Uint32 (take 4 payload) in
      let buildParams :=
        foldl (λ buildParams '(k, v),
                 (* Filter out internal metadata keys *)
                 if decide (k ≠ "deployment_id" ∧ k ≠ "pooled"
                            ∧ k ≠ "username")
                 then <[k := v]> buildParams else buildParams)
              ∅ (range 0 params) in
      let buildParams := <["user" := newUser]> buildParams in
      rebuiltMsg ← rebuildStartupMessage protocolVersion buildParams;
      Some (<["_raw_startup_message" := string_of_list_byte rebuiltMsg]> params)
    else
      (* Not modified: the raw message is header + payload *)
      let fullMsg := replicate (length header + length payload) x00 in
      fullMsg ← slice_copy fullMsg 0 header;
      fullMsg ← slice_copy fullMsg 4 payload;
      Some (<["_raw_startup_message" := string_of_list_byte fullMsg]> params)
  else Some params.

(** *** The startup message (lines 102-222) *)

Definition handleStartup (header payload : list byte) (conn : Conn)
  : Result :=
  if decide (length payload < 4)%nat then Failed ErrPayloadTooShort conn
  else
    match parseParams (drop 4 payload) ∅ with
    | inl err => Failed err conn
    | inr params =>
        let params := parseUsername params in
        match storeReplay header payload params with
        | Some params => Done params conn
        | None => Panic
        end
    end.

(** *** [sendErrorResponse] (lines 32-57) *)

Record ErrorResponse : Type := mkErrorResponse {
  Severity : string;
  Code : string;
  Message : string
}.

(** The connection after the write; [None] when the write fails (the
    caller ignores the error). *)
Definition sendErrorResponse (conn : Conn) (errResp : ErrorResponse)
  : option Conn :=
  let msgData := [] in
  let msgData := msgData ++ ["S"%byte] in
  let msgData := msgData ++ list_byte_of_string (Severity errResp) in
  let msgData := msgData ++ [x00] in
  let msgData := msgData ++ ["C"%byte] in
  let msgData := msgData ++ list_byte_of_string (Code errResp) in
  let msgData := msgData ++ [x00] in
  let msgData := msgData ++ ["M"%byte] in
  let msgData := msgData ++ list_byte_of_string (Message errResp) in
  let msgData := msgData ++ [x00] in
  let msgData := msgData ++ [x00] in
  let msg := replicate (1 + 4 + length msgData) x00 in
  msg ← slice_set msg 0 "E"%byte;
  msg ← slice_PutUint32 msg 1 5 (uint32 (Z.of_nat (4 + length msgData)));
  msg ← slice_copy msg 5 msgData;
  conn_Write conn msg.

(** *** [Handshake] (lines 59-223)

    The recursion on the TLS connection is bounded by [fuel]. *)
Fixpoint Handshake (fuel : nat) (conn : Conn) : Result :=
  match fuel with
  | O => OutOfFuel
  | S fuel =>
      match readFrame conn with
      | FrameError err conn => Failed err conn
      | FrameRead header payload conn =>
          if isSSLRequest payload then
            (* Send 'S' to accept SSL *)
            match conn_Write conn ["S"%byte] with
            | None => Failed ErrWriteSSL conn
            | Some conn =>
                (* Upgrade connection *)
                match tlsServerHandshake conn with
                | inl (err, conn) =>
                    let conn :=
                      default conn
                        (sendErrorResponse conn
                           (mkErrorResponse "FATAL" "08006"
                              ("TLS handshake failed: " +:+ err))) in
                    Failed ErrTLSHandshake conn
                | inr tlsConn => Handshake fuel tlsConn
                end
            end
          else handleStartup header payload conn
      end
  end.

(** *** [Server.handleConnection], up to the start of the relay
    (server.go, lines 31-67) *)

Inductive Connection : Type :=
| HandshakeFailed (result : Result)
| ResolutionFailed
| DialFailed
| ForwardFailed
| Relaying (clientConn backendConn : Conn).

Definition handleConnection (fuel : nat) (clientConn : Conn)
  : Connection :=
  match Handshake fuel clientConn with
  | Done metadata clientConn =>
      match Resolve metadata with
      | None => ResolutionFailed
      | Some backendAddr =>
          match Dial backendAddr with
          | None => DialFailed
          | Some backendConn =>
              (* Forward Startup Message (if present in metadata) *)
              match metadata !! "_raw_startup_message" with
              | Some rawMsg =>
                  match conn_Write backendConn (list_byte_of_string rawMsg) with
                  | None => ForwardFailed
                  | Some backendConn => Relaying clientConn backendConn
                  end
              | None => Relaying clientConn backendConn
              end
          end
      end
  | result => HandshakeFailed result
  end.

End Engine.

(** * Other code of the repository *)

(** ** Earlier handlers

    The handler of [protocol/postgresql/handler.go] and the one before it
    read the frame, accept an SSLRequest and run the parameter loop as the
    handler above does; the first stops after the tenant parser, the second
    after the loop.  Neither sends an error response when TLS fails. *)

Module handler_go.
Section Handler.

Variable tlsServerHandshake : Conn → string * Conn + Conn.

(** [Handshake] of handler.go (lines 24-119). *)
Fixpoint Handshake (fuel : nat) (conn : Conn) : Result :=
  match fuel with
  | O => OutOfFuel
  | S fuel =>
      match readFrame conn with
      | FrameError err conn => Failed err conn
      | FrameRead header payload conn =>
          if isSSLRequest payload then
            match conn_Write conn ["S"%byte] with
            | None => Failed ErrWriteSSL conn
            | Some conn =>
                match tlsServerHandshake conn with
                | inl (err, conn) => Failed ErrTLSHandshake conn
                | inr tlsConn => Handshake fuel tlsConn
                end
            end
          else if decide (length payload < 4)%nat then
            Failed ErrPayloadTooShort conn
          else
            match parseParams (drop 4 payload) ∅ with
            | inl err => Failed err conn
            | inr params => Done (parseUsername params) conn
            end
      end
  end.

End Handler.
End handler_go.

Module part_000.
Section Handler.

Variable tlsServerHandshake : Conn → string * Conn + Conn.

(** [Handshake] of the first handler (part_000, lines 22-92). *)
Fixpoint Handshake (fuel : nat) (conn : Conn) : Result :=
  match fuel with
  | O => OutOfFuel
  | S fuel =>
      match readFrame conn with
      | FrameError err conn => Failed err conn
      | FrameRead header payload conn =>
          if isSSLRequest payload then
            match conn_Write conn ["S"%byte] with
            | None => Failed ErrWriteSSL conn
            | Some conn =>
                match tlsServerHandshake conn with
                | inl (err, conn) => Failed ErrTLSHandshake conn
                | inr tlsConn => Handshake fuel tlsConn
                end
            end
          else if decide (length payload < 4)%nat then
            Failed ErrPayloadTooShort conn
          else
            match parseParams (drop 4 payload) ∅ with
            | inl err => Failed err conn
            | inr params => Done params conn
            end
      end
  end.

End Handler.
End part_000.

(** ** The memory resolver (discovery/memory/resolver.go) *)

Module memory.
Section Resolver.

(** [strings.TrimSpace]: the white space of Unicode is not modelled; the
    resolver is read for any trimming function. *)
Variable strings_TrimSpace : string → string.

Record Resolver : Type := mkResolver { backends : gmap string string }.

(** The loop over the pairs (lines 26-34); [inl entry] is the error
    "invalid mapping format: entry" for the pair [entry]. *)
Fixpoint addPairs (pairs : list string) (backends : gmap string string)
  : string + gmap string string :=
  match pairs with
  | [] => inr backends
  | entry :: pairs =>
      let parts := strings_Split (strings_TrimSpace entry) "=" in
      if decide (length parts ≠ 2%nat) then inl entry
      else
        let name := strings_TrimSpace (index parts 0) in
        let addr := strings_TrimSpace (index parts 1) in
        addPairs pairs (<[name := addr]> backends)
  end.

(** [NewResolver] (lines 19-37); the format is
    [db1=host1:port,db2=host2:port]. *)
Definition NewResolver (mappingStr : string) : string + Resolver :=
  let backends : gmap string string := ∅ in
  if String.eqb mappingStr "" then inr (mkResolver backends)
  else
    let pairs := strings_Split mappingStr "," in
    match addPairs pairs backends with
    | inl entry => inl entry
    | inr backends => inr (mkResolver backends)
    end.

(** [Resolve] (lines 39-50); [None] is the error "backend not found for
    database".  Reading a missing key of a Go map gives the empty
    string. *)
Definition Resolve (r : Resolver) (metadata : gmap string string)
  : option string :=
  backends r !! default "" (metadata !! "database").

End Resolver.
End memory.

(** ** The health server (api/server.go)

    The state the handlers read is the ready flag. *)

Module api.

Record HealthServer : Type := mkHealthServer { Addr : string; ready : bool }.

(** [NewHealthServer] (lines 15-31): not ready until explicitly set. *)
Definition NewHealthServer (addr : string) : HealthServer :=
  mkHealthServer addr false.

(** [SetReady] (lines 46-48) *)
Definition SetReady (s : HealthServer) (ready : bool) : HealthServer :=
  mkHealthServer (Addr s) ready.

(** A response: the status code and the body. *)
Definition StatusOK : Z := 200.
Definition StatusServiceUnavailable : Z := 503.

(** [handleHealthz] (lines 50-53) *)
Definition handleHealthz (s : HealthServer) : Z * string := (StatusOK, "ok").

(** [handleReadyz] (lines 55-63) *)
Definition handleReadyz (s : HealthServer) : Z * string :=
  if ready s then (StatusOK, "ready")
  else (StatusServiceUnavailable, "not ready").

End api.

(** * The vocabulary of the properties

    What the statements below talk about: the wire format of a pair, the
    size of a map on the wire, the frame that [rebuildStartupMessage]
    builds, the connections a handshake goes through, and the clients of
    the examples. *)

(** ** The wire format *)

(** A string that holds no NUL byte. *)
Definition nulFree (s : string) : Prop := x00 ∉ list_byte_of_string s.

(** The bytes of one pair on the wire: [key\0value\0]. *)
Definition encodePair (kv : string * string) : list byte :=
  list_byte_of_string kv.1 ++ x00 :: list_byte_of_string kv.2 ++ [x00].

(** A pair that the wire format can carry: the key is not empty, and
    neither key nor value holds a NUL byte. *)
Definition wirePair (k v : string) : Prop := k ≠ "" ∧ nulFree k ∧ nulFree v.

(** The number of bytes of a pair on the wire. *)
Definition pairBytes (kv : string * string) : nat :=
  String.length kv.1 + 1 + String.length kv.2 + 1.

(** The bytes the pairs of a map take on the wire. *)
Definition mapBytes (m : gmap string string) : nat :=
  sum_list_with pairBytes (map_to_list m).

(** The length of the frame that carries the pairs of a map: length field,
    protocol version, the pairs, the final NUL. *)
Definition encodedLength (m : gmap string string) : nat :=
  (4 + 4 + mapBytes m + 1)%nat.

(** The frame with the pairs in the order [kvs]. *)
Definition encodedFrame (total : nat) (protocolVersion : Z)
    (kvs : list (string * string)) : list byte :=
  BigEndian_PutUint32 (uint32 (Z.of_nat total))
  ++ BigEndian_PutUint32 protocolVersion
  ++ concat (encodePair <$> kvs) ++ [x00].

(** The keys that the copy in [Handshake] lets through. *)
Definition passesFilter (k : string) : Prop :=
  k ≠ "deployment_id" ∧ k ≠ "pooled" ∧ k ≠ "username".

(** The test of the filter is the one the copy loop decides. *)
Global Instance passesFilter_dec k : Decision (passesFilter k).
Proof. unfold passesFilter. apply _. Defined.

(** The parameters of the rebuilt message: what passes the filter, with
    the user replaced. *)
Definition buildParamsOf (params : gmap string string) (newUser : string)
  : gmap string string :=
  <["user" := newUser]> (filter (λ kv, passesFilter kv.1) params).

(** ** The connections of a handshake *)

(** [c'] is [c] or what [c] becomes after SSLRequests were accepted and the
    connection upgraded. *)
Inductive upgrades (tlsServerHandshake : Conn → string * Conn + Conn)
  : Conn → Conn → Prop :=
| upgrades_here c : upgrades tlsServerHandshake c c
| upgrades_tls c header payload c1 c2 tlsConn c' :
    readFrame c = FrameRead header payload c1 →
    isSSLRequest payload = true →
    conn_Write c1 ["S"%byte] = Some c2 →
    tlsServerHandshake c2 = inr tlsConn →
    upgrades tlsServerHandshake tlsConn c' →
    upgrades tlsServerHandshake c c'.

(** The handshake on [conn] reads, on [conn] itself or on the connection
    it was upgraded to, the startup frame [header ++ payload] that carries
    the parameters [P], and is left with [conn']. *)
Definition readsStartup (tlsServerHandshake : Conn → string * Conn + Conn)
    (conn : Conn) (header payload : list byte) (conn' : Conn)
    (P : gmap string string) : Prop :=
  ∃ c0, upgrades tlsServerHandshake conn c0
        ∧ readFrame c0 = FrameRead header payload conn'
        ∧ isSSLRequest payload = false
        ∧ (4 ≤ length payload)%nat
        ∧ parseParams (drop 4 payload) ∅ = inr P.

(** A client that sends [bytes] and closes. *)
Definition client (bytes : list byte) : Conn := mkConn bytes [] true.

(** Decoding a startup frame as [Handshake] does (lines 60-132): the frame
    is read from a client that sends [frame], it is not an SSLRequest, and
    the loop yields the parameters; the protocol version is the one the
    rebuild step reads from the payload (line 171). *)
Definition decodeStartup (frame : list byte)
  : option (Z * gmap string string) :=
  match readFrame (client frame) with
  | FrameRead header payload _ =>
      if isSSLRequest payload then None
      else if decide (length payload < 4)%nat then None
      else
        match parseParams (drop 4 payload) ∅ with
        | inr params => Some (BigEndian_Uint32 (take 4 payload), params)
        | inl _ => None
        end
  | FrameError _ _ => None
  end.

(** ** Clients, TLS libraries and backends of the examples *)

(** The startup frame a client sends for the pairs [kvs]. *)
Definition clientStartup (protocolVersion : Z) (kvs : list (string * string))
  : list byte :=
  let body :=
    BigEndian_PutUint32 protocolVersion ++ concat (encodePair <$> kvs) ++ [x00]
  in
  BigEndian_PutUint32 (Z.of_nat (4 + length body)) ++ body.

(** The SSLRequest frame. *)
Definition clientSSLRequest : list byte :=
  BigEndian_PutUint32 8 ++ BigEndian_PutUint32 sslRequestCode.

(** An enumeration order, a TLS library that accepts every client, and one
    that refuses every client: it has read what the client sent, and it
    answers with an alert. *)
Definition rangeSorted (site : nat) (m : gmap string string)
  : list (string * string) := map_to_list m.
Definition tlsAccepts (conn : Conn) : string * Conn + Conn :=
  inr (mkConn (inbound conn) [] true).
Definition tlsRefuses (conn : Conn) : string * Conn + Conn :=
  inl ("bad record",
       mkConn [] (outbound conn ++ [x15; x03; x03; x00; x02; x02; x0a])
         (writable conn)).

(** A resolver and a dialer for the examples. *)
Definition resolveAny (metadata : gmap string string) : option string :=
  Some "10.0.0.1:5432".
Definition dialAny (backendAddr : string) : option Conn :=
  Some (mkConn [] [] true).

(** The handshake of a client that sends [frame] in clear text. *)
Definition metadataOf (frame : list byte) : gmap string string :=
  match Handshake rangeSorted tlsAccepts 1 (client frame) with
  | Done metadata _ => metadata
  | _ => ∅
  end.

(** The replay bytes in the metadata. *)
Definition replayOf (metadata : gmap string string) : list byte :=
  list_byte_of_string (default "" (metadata !! "_raw_startup_message")).

(** Clients whose user is rewritten, is kept, has two parts that end in
    pool, and is missing. *)
Definition aliceFrame : list byte :=
  clientStartup 196608 [("user", "alice.dep42"); ("database", "app")].
Definition soloFrame : list byte :=
  clientStartup 196608 [("user", "solo"); ("database", "app")].
Definition poolFrame : list byte :=
  clientStartup 196608 [("user", "something.pool"); ("database", "app")].
Definition anonymousFrame : list byte :=
  clientStartup 196608 [("database", "app"); ("application_name", "psql")].

(** A frame that declares 65537 bytes, one more than 64 KiB. *)
Definition oversizedPayload : list byte := replicate (Z.to_nat 65533) x00.
Definition oversizedFrame : list byte :=
  BigEndian_PutUint32 65537 ++ oversizedPayload.

(** A client that sends no user, and a parameter named like the reserved
    key. *)
Definition smugglingFrame : list byte :=
  clientStartup 196608
    [("database", "app"); ("_raw_startup_message", "injected")].

(** A client whose user is rewritten and that sends a parameter named like
    the reserved key. *)
Definition collidingFrame : list byte :=
  clientStartup 196608
    [("user", "alice.dep42"); ("_raw_startup_message", "junk")].

(** A frame with one parameter [k] whose value is [n] bytes long, and no
    final NUL: the loop ends at the end of the payload. *)
Definition longValue (n : nat) : string :=
  string_of_list_byte (replicate n "a"%byte).
Definition longFrame (n : nat) : list byte :=
  BigEndian_PutUint32 (Z.of_nat n + 11)
  ++ BigEndian_PutUint32 196608 ++ encodePair ("k", longValue n).

(** ** Strings without a separator *)

(** How often the byte [c] occurs in [s]. *)
Fixpoint occurrences (c : ascii) (s : string) : nat :=
  match s with
  | EmptyString => 0%nat
  | String d s' => ((if Ascii.eqb d c then 1 else 0) + occurrences c s')%nat
  end.

(** ** The error response on the wire *)

(** The fields of an error response: severity, code and message, each
    after its field code and closed by a NUL, and the final NUL. *)
Definition errorFields (errResp : ErrorResponse) : list byte :=
  "S"%byte :: list_byte_of_string (Severity errResp)
  ++ x00 :: "C"%byte :: list_byte_of_string (Code errResp)
  ++ x00 :: "M"%byte :: list_byte_of_string (Message errResp)
  ++ [x00; x00].

(** The message: the type byte, the length of what follows it, the
    fields. *)
Definition errorResponseBytes (errResp : ErrorResponse) : list byte :=
  "E"%byte
  :: BigEndian_PutUint32 (uint32 (Z.of_nat (4 + length (errorFields errResp))))
  ++ errorFields errResp.

(** ** The handlers compared *)

(** The outcome of an earlier handler and the outcome of the handler with
    the replay step: the same connection and the same metadata up to the
    reserved key, or the same error on the same connection; when TLS
    fails, the same error on a connection from which the same bytes were
    read and to which the later handler may have written more: the error
    response, when the connection still takes a write. *)
Inductive sameOutcome : Result → Result → Prop :=
| same_Done (P md : gmap string string) (conn : Conn) :
    (∀ k, k ≠ "_raw_startup_message" → md !! k = P !! k) →
    sameOutcome (Done P conn) (Done md conn)
| same_Failed (err : HandshakeError) (conn : Conn) :
    err ≠ ErrTLSHandshake →
    sameOutcome (Failed err conn) (Failed err conn)
| same_TLS (conn conn' : Conn) (err : string) :
    inbound conn' = inbound conn →
    outbound conn `prefix_of` outbound conn' →
    (writable conn = true →
     conn' = mkConn (inbound conn)
               (outbound conn
                ++ errorResponseBytes
                     (mkErrorResponse "FATAL" "08006"
                        ("TLS handshake failed: " +:+ err)))
               true) →
    sameOutcome (Failed ErrTLSHandshake conn) (Failed ErrTLSHandshake conn')
| same_OutOfFuel : sameOutcome OutOfFuel OutOfFuel.

(** ** The mapping string of the memory resolver *)

(** An entry the resolver accepts: trimmed, it has exactly one [=]. *)
Definition wellFormedEntry (trim : string → string) (entry : string) : Prop :=
  occurrences "=" (trim entry) = 1%nat.

(** The name and the address the resolver stores for an entry. *)
Definition entryOf (trim : string → string) (entry : string)
  : string * string :=
  let parts := strings_Split (trim entry) "=" in
  (trim (index parts 0), trim (index parts 1)).

(** The mapping string of a list of names and addresses, in the format of
    the comment of [NewResolver]: [db1=host1:port,db2=host2:port]. *)
Definition formatMapping (kvs : list (string * string)) : string :=
  strings_Join ((λ kv, kv.1 +:+ "=" +:+ kv.2) <$> kvs) ",".

(** A trimming function for the examples: it removes the blanks at both
    ends. *)
Fixpoint trimLeft (s : string) : string :=
  match s with
  | String c s' => if Ascii.eqb c " " then trimLeft s' else s
  | EmptyString => EmptyString
  end.

Fixpoint trimRight (s : string) : string :=
  match s with
  | String c s' =>
      let t := trimRight s' in
      if Ascii.eqb c " " && String.eqb t "" then EmptyString else String c t
  | EmptyString => EmptyString
  end.

Definition trimBlanks (s : string) : string := trimRight (trimLeft s).

(** A name and an address that the format carries as they are: no [,]
    and no [=] in them, and nothing for the resolver to trim. *)
Definition plainEntry (trim : string → string) (kv : string * string)
  : Prop :=
  occurrences "," kv.1 = 0%nat ∧ occurrences "=" kv.1 = 0%nat
  ∧ occurrences "," kv.2 = 0%nat ∧ occurrences "=" kv.2 = 0%nat
  ∧ trim kv.1 = kv.1 ∧ trim kv.2 = kv.2
  ∧ trim (kv.1 +:+ "=" +:+ kv.2) = kv.1 +:+ "=" +:+ kv.2.

(** * Properties *)

(** ** Machine integers *)

Section WordFacts.

Lemma Z_of_byte_range b : 0 ≤ Z_of_byte b < 256.
Proof.
  unfold Z_of_byte. pose proof (Byte.to_N_bounded b). lia.
Qed.

Lemma byte_of_Z_of_byte b : byte_of_Z (Z_of_byte b) = b.
Proof.
  unfold byte_of_Z. pose proof (Z_of_byte_range b).
  rewrite Z.mod_small by lia.
  unfold Z_of_byte. rewrite N2Z.id, Byte.of_to_N. done.
Qed.

Lemma Z_of_byte_of_Z n : Z_of_byte (byte_of_Z n) = n mod 256.
Proof.
  unfold byte_of_Z, Z_of_byte.
  pose proof (Z.mod_pos_bound n 256 ltac:(lia)).
  destruct (Byte.of_N (Z.to_N (n mod 256))) as [b|] eqn:Hb.
  - apply Byte.to_of_N in Hb. rewrite Hb. lia.
  - apply Byte.of_N_None_iff in Hb. lia.
Qed.

(** [hi << k | lo] adds up when [lo] fits in [k] bits. *)
Lemma lor_shiftl_add lo hi k :
  0 ≤ k → 0 ≤ lo < 2 ^ k → Z.lor lo (Z.shiftl hi k) = lo + hi * 2 ^ k.
Proof.
  intros Hk Hlo. rewrite Z.shiftl_mul_pow2 by done.
  rewrite <- Z.add_nocarry_lor; [done|].
  apply Z.bits_inj'. intros i Hi.
  rewrite Z.land_spec, Z.bits_0.
  destruct (decide (i < k)).
  - rewrite Z.mul_pow2_bits_low by lia. apply andb_false_r.
  - destruct (decide (lo = 0)) as [->|]; [by rewrite Z.bits_0|].
    assert (Z.log2 lo < k) by (apply Z.log2_lt_pow2; lia).
    rewrite (Z.bits_above_log2 lo i); [done|lia|lia].
Qed.

Lemma BigEndian_Uint32_sum b0 b1 b2 b3 rest :
  BigEndian_Uint32 (b0 :: b1 :: b2 :: b3 :: rest) =
  Z_of_byte b0 * 2 ^ 24 + Z_of_byte b1 * 2 ^ 16 + Z_of_byte b2 * 2 ^ 8
  + Z_of_byte b3.
Proof.
  unfold BigEndian_Uint32.
  pose proof (Z_of_byte_range b0). pose proof (Z_of_byte_range b1).
  pose proof (Z_of_byte_range b2). pose proof (Z_of_byte_range b3).
  rewrite (lor_shiftl_add _ _ 8) by lia.
  rewrite (lor_shiftl_add _ _ 16) by lia.
  rewrite (lor_shiftl_add _ _ 24) by lia.
  lia.
Qed.

Lemma BigEndian_Uint32_range b : 0 ≤ BigEndian_Uint32 b < 2 ^ 32.
Proof.
  destruct b as [|b0 [|b1 [|b2 [|b3 rest]]]]; try (simpl; lia).
  rewrite BigEndian_Uint32_sum.
  pose proof (Z_of_byte_range b0). pose proof (Z_of_byte_range b1).
  pose proof (Z_of_byte_range b2). pose proof (Z_of_byte_range b3).
  lia.
Qed.

Lemma BigEndian_Uint32_take4 b :
  BigEndian_Uint32 (take 4 b) = BigEndian_Uint32 b.
Proof. by destruct b as [|b0 [|b1 [|b2 [|b3 rest]]]]. Qed.

Lemma BigEndian_Uint32_app b rest :
  length b = 4%nat → BigEndian_Uint32 (b ++ rest) = BigEndian_Uint32 b.
Proof.
  by destruct b as [|b0 [|b1 [|b2 [|b3 [|??]]]]].
Qed.

Lemma length_BigEndian_PutUint32 v : length (BigEndian_PutUint32 v) = 4%nat.
Proof. done. Qed.

(** Reading back what [PutUint32] stored. *)
Lemma BigEndian_Uint32_PutUint32 v :
  BigEndian_Uint32 (BigEndian_PutUint32 v) = v mod 2 ^ 32.
Proof.
  unfold BigEndian_PutUint32. rewrite BigEndian_Uint32_sum.
  rewrite !Z_of_byte_of_Z, !Z.shiftr_div_pow2 by lia.
  change 256 with (2 ^ 8).
  pose proof (Z.div_mod v (2 ^ 8) ltac:(lia)).
  pose proof (Z.div_mod (v / 2 ^ 8) (2 ^ 8) ltac:(lia)).
  pose proof (Z.div_mod (v / 2 ^ 8 / 2 ^ 8) (2 ^ 8) ltac:(lia)).
  pose proof (Z.div_mod (v / 2 ^ 8 / 2 ^ 8 / 2 ^ 8) (2 ^ 8) ltac:(lia)).
  pose proof (Z.div_mod v (2 ^ 32) ltac:(lia)).
  pose proof (Z.mod_pos_bound v (2 ^ 32) ltac:(lia)).
  pose proof (Z.mod_pos_bound v (2 ^ 8) ltac:(lia)).
  pose proof (Z.mod_pos_bound (v / 2 ^ 8) (2 ^ 8) ltac:(lia)).
  pose proof (Z.mod_pos_bound (v / 2 ^ 8 / 2 ^ 8) (2 ^ 8) ltac:(lia)).
  pose proof (Z.mod_pos_bound (v / 2 ^ 8 / 2 ^ 8 / 2 ^ 8) (2 ^ 8) ltac:(lia)).
  replace (v / 2 ^ 16) with (v / 2 ^ 8 / 2 ^ 8)
    by (rewrite Z.div_div by lia; done).
  replace (v / 2 ^ 24) with (v / 2 ^ 8 / 2 ^ 8 / 2 ^ 8)
    by (rewrite !Z.div_div by lia; done).
  replace (v / 2 ^ 32) with (v / 2 ^ 8 / 2 ^ 8 / 2 ^ 8 / 2 ^ 8) in *
    by (rewrite !Z.div_div by lia; done).
  lia.
Qed.

Lemma byte_of_Z_unique n b : n mod 256 = Z_of_byte b → byte_of_Z n = b.
Proof.
  intros Hn. unfold byte_of_Z. rewrite Hn.
  unfold Z_of_byte. by rewrite N2Z.id, Byte.of_to_N.
Qed.

(** Storing what [Uint32] read gives the four bytes back. *)
Lemma BigEndian_PutUint32_Uint32 b0 b1 b2 b3 :
  BigEndian_PutUint32 (BigEndian_Uint32 [b0; b1; b2; b3]) = [b0; b1; b2; b3].
Proof.
  rewrite BigEndian_Uint32_sum. unfold BigEndian_PutUint32.
  pose proof (Z_of_byte_range b0). pose proof (Z_of_byte_range b1).
  pose proof (Z_of_byte_range b2). pose proof (Z_of_byte_range b3).
  rewrite !Z.shiftr_div_pow2 by lia.
  set (v := _ + Z_of_byte b3).
  assert (v / 2 ^ 24 = Z_of_byte b0) as ->
    by (symmetry; apply (Z.div_unique _ _ _ (v - Z_of_byte b0 * 2 ^ 24));
        unfold v; lia).
  assert (v / 2 ^ 16 = Z_of_byte b0 * 2 ^ 8 + Z_of_byte b1) as ->
    by (symmetry;
        apply (Z.div_unique _ _ _ (Z_of_byte b2 * 2 ^ 8 + Z_of_byte b3));
        unfold v; lia).
  assert (v / 2 ^ 8 =
          Z_of_byte b0 * 2 ^ 16 + Z_of_byte b1 * 2 ^ 8 + Z_of_byte b2) as ->
    by (symmetry; apply (Z.div_unique _ _ _ (Z_of_byte b3)); unfold v; lia).
  f_equal; [|f_equal; [|f_equal; [|f_equal]]]; apply byte_of_Z_unique.
  - apply Z.mod_small; lia.
  - symmetry. apply (Z.mod_unique _ _ (Z_of_byte b0)); lia.
  - symmetry.
    apply (Z.mod_unique _ _ (Z_of_byte b0 * 2 ^ 8 + Z_of_byte b1)); lia.
  - symmetry. unfold v.
    apply (Z.mod_unique _ _
             (Z_of_byte b0 * 2 ^ 16 + Z_of_byte b1 * 2 ^ 8 + Z_of_byte b2));
      lia.
Qed.

Lemma int32_nonneg u : 0 ≤ u < 2 ^ 31 → int32 u = u.
Proof.
  intros Hu. unfold int32. rewrite Z.mod_small by lia.
  destruct (Z.ltb_spec u (2 ^ 31)); lia.
Qed.

Lemma int32_negative u : 2 ^ 31 ≤ u < 2 ^ 32 → int32 u = u - 2 ^ 32.
Proof.
  intros Hu. unfold int32. rewrite Z.mod_small by lia.
  destruct (Z.ltb_spec u (2 ^ 31)); lia.
Qed.

Lemma int32_lt_4 u : 0 ≤ u < 2 ^ 32 → int32 u < 4 ↔ u < 4 ∨ 2 ^ 31 ≤ u.
Proof.
  intros Hu. destruct (decide (u < 2 ^ 31)).
  - rewrite int32_nonneg by lia. lia.
  - rewrite int32_negative by lia. lia.
Qed.

Lemma int32_sslRequestCode u :
  0 ≤ u < 2 ^ 32 → int32 u = sslRequestCode ↔ u = sslRequestCode.
Proof.
  intros Hu. unfold sslRequestCode. destruct (decide (u < 2 ^ 31)).
  - rewrite int32_nonneg by lia. lia.
  - rewrite int32_negative by lia. lia.
Qed.

End WordFacts.

(** ** Reading a frame *)

Section FrameFacts.

Lemma io_ReadFull_Some conn n b conn' :
  io_ReadFull conn n = (Some b, conn') →
  length b = n ∧ inbound conn = b ++ inbound conn'
  ∧ outbound conn' = outbound conn ∧ writable conn' = writable conn.
Proof.
  unfold io_ReadFull. case_decide; [|done]. intros [= <- <-]. simpl.
  rewrite length_take, take_drop. split_and!; [lia|done..].
Qed.

Lemma io_ReadFull_None conn n conn' :
  io_ReadFull conn n = (None, conn') →
  (length (inbound conn) < n)%nat
  ∧ conn' = mkConn [] (outbound conn) (writable conn).
Proof.
  unfold io_ReadFull. case_decide; [done|]. intros [= <-]. split; [lia|done].
Qed.

Lemma io_ReadFull_short conn n :
  (length (inbound conn) < n)%nat →
  io_ReadFull conn n = (None, mkConn [] (outbound conn) (writable conn)).
Proof. intros Hn. unfold io_ReadFull. case_decide; [lia|done]. Qed.

Lemma io_ReadFull_app b rest out w :
  io_ReadFull (mkConn (b ++ rest) out w) (length b)
  = (Some b, mkConn rest out w).
Proof.
  unfold io_ReadFull. simpl. rewrite length_app.
  case_decide; [|lia]. by rewrite take_app_length, drop_app_length.
Qed.

(** What a frame that was read looks like on the wire. *)
Lemma readFrame_FrameRead conn header payload conn' :
  readFrame conn = FrameRead header payload conn' →
  length header = 4%nat
  ∧ 4 ≤ BigEndian_Uint32 header < 2 ^ 31
  ∧ Z.of_nat (length payload) = BigEndian_Uint32 header - 4
  ∧ inbound conn = header ++ payload ++ inbound conn'
  ∧ outbound conn' = outbound conn ∧ writable conn' = writable conn.
Proof.
  unfold readFrame.
  destruct (io_ReadFull conn 4) as [[h|] c1] eqn:Hh; [|done].
  pose proof (BigEndian_Uint32_range h) as Hr.
  destruct (Z.ltb_spec (int32 (BigEndian_Uint32 h)) 4) as [|Hge]; [done|].
  destruct (io_ReadFull c1 _) as [[p|] c2] eqn:Hp; [|done].
  intros [= <- <- <-].
  apply io_ReadFull_Some in Hh as (Hlh & Hih & Hoh & Hwh).
  apply io_ReadFull_Some in Hp as (Hlp & Hip & Hop & Hwp).
  assert (¬ (BigEndian_Uint32 h < 4 ∨ 2 ^ 31 ≤ BigEndian_Uint32 h))
    by (rewrite <- int32_lt_4 by done; lia).
  rewrite int32_nonneg in Hlp by lia.
  split_and!; try congruence; try lia.
Qed.

End FrameFacts.

(** ** Strings, bytes and [ReadString] *)

Section StringFacts.

Lemma length_list_byte_of_string s :
  length (list_byte_of_string s) = String.length s.
Proof.
  unfold list_byte_of_string. rewrite length_map.
  induction s; simpl; congruence.
Qed.

Lemma list_byte_of_string_app s t :
  list_byte_of_string (s +:+ t)
  = list_byte_of_string s ++ list_byte_of_string t.
Proof.
  unfold list_byte_of_string. rewrite <- map_app. f_equal.
  induction s as [|c s IH]; simpl; [done|by rewrite IH].
Qed.

Lemma string_of_list_byte_app a b :
  string_of_list_byte (a ++ b)
  = string_of_list_byte a +:+ string_of_list_byte b.
Proof.
  unfold string_of_list_byte.
  induction a as [|x a IH]; simpl; [done|by rewrite IH].
Qed.

Lemma string_of_list_byte_inj a b :
  string_of_list_byte a = string_of_list_byte b → a = b.
Proof.
  intros H. rewrite <- (list_byte_of_string_of_list_byte a),
    <- (list_byte_of_string_of_list_byte b). by rewrite H.
Qed.

Lemma string_length_app s t :
  String.length (s +:+ t) = (String.length s + String.length t)%nat.
Proof. induction s as [|c s IH]; simpl; [done|by rewrite IH]. Qed.

Lemma substring_0_length_app s t :
  String.substring 0 (String.length s) (s +:+ t) = s.
Proof.
  induction s as [|c s IH]; simpl; [by destruct t|]. by rewrite IH.
Qed.

Lemma trimLast_snoc s c : trimLast (s +:+ String c "") = s.
Proof.
  unfold trimLast. rewrite string_length_app. simpl.
  replace (String.length s + 1 - 1)%nat with (String.length s) by lia.
  apply substring_0_length_app.
Qed.

Lemma trimLast_bytes_snoc l c :
  trimLast (string_of_list_byte (l ++ [c])) = string_of_list_byte l.
Proof. rewrite string_of_list_byte_app. apply trimLast_snoc. Qed.

Lemma string_of_list_byte_nil l : string_of_list_byte l = "" ↔ l = [].
Proof. split; [by destruct l|by intros ->]. Qed.

Lemma nulFree_string_of_list_byte l :
  nulFree (string_of_list_byte l) ↔ x00 ∉ l.
Proof. unfold nulFree. by rewrite list_byte_of_string_of_list_byte. Qed.

Lemma nulFree_app s t : nulFree (s +:+ t) ↔ nulFree s ∧ nulFree t.
Proof.
  unfold nulFree. rewrite list_byte_of_string_app, not_elem_of_app. done.
Qed.

Lemma nulFree_empty : nulFree "".
Proof. unfold nulFree. simpl. apply not_elem_of_nil. Qed.

Lemma nulFree_String c s :
  nulFree (String c s) ↔ byte_of_ascii c ≠ x00 ∧ nulFree s.
Proof.
  unfold nulFree. change (list_byte_of_string (String c s))
    with (byte_of_ascii c :: list_byte_of_string s).
  rewrite not_elem_of_cons. split; intros [? ?]; split; congruence.
Qed.

Lemma Byte_eqb_eq x y : Byte.eqb x y = true ↔ x = y.
Proof. split; [apply Byte.byte_dec_bl|apply Byte.byte_dec_lb]. Qed.

Lemma Byte_eqb_neq x y : Byte.eqb x y = false → y ≠ x.
Proof. intros H%Byte.eqb_false. congruence. Qed.

Lemma bytes_IndexByte_None b c : bytes_IndexByte b c = None ↔ c ∉ b.
Proof.
  induction b as [|x b IH]; simpl.
  - split; [intros _; apply not_elem_of_nil|done].
  - rewrite not_elem_of_cons. destruct (Byte.eqb x c) eqn:E.
    + apply Byte_eqb_eq in E. split; [done|]. intros [Hne _]. congruence.
    + apply Byte_eqb_neq in E. rewrite fmap_None, IH.
      split; [done|]. by intros [_ ?].
Qed.

Lemma bytes_IndexByte_Some b c i :
  bytes_IndexByte b c = Some i ↔
  ∃ l rest, b = l ++ c :: rest ∧ (c ∉ l) ∧ i = length l.
Proof.
  revert i. induction b as [|x b IH]; intros i; simpl.
  - split; [done|]. intros (l & rest & H & _). by destruct l.
  - destruct (Byte.eqb x c) eqn:E.
    + apply Byte_eqb_eq in E. subst x. split.
      * intros [= <-]. exists [], b.
        split_and!; [done|apply not_elem_of_nil|done].
      * intros ([|y l] & rest & H & Hl & ->); [done|].
        injection H as Hy _. subst y.
        apply not_elem_of_cons in Hl as [Hne _]. done.
    + apply Byte_eqb_neq in E. rewrite fmap_Some. split.
      * intros (j & Hj & ->).
        apply IH in Hj as (l & rest & Hb & Hl & Hlen). subst b j.
        exists (x :: l), rest. split_and!; [done| |done].
        by apply not_elem_of_cons.
      * intros ([|y l] & rest & Hb & Hl & Hlen); simpl in Hb;
          injection Hb as Hx Hb; [congruence|]. subst.
        apply not_elem_of_cons in Hl as [_ Hl].
        exists (length l). split; [|done]. apply IH. eauto.
Qed.

Lemma Buffer_ReadString_found l c rest :
  c ∉ l →
  Buffer_ReadString (l ++ c :: rest) c
  = (string_of_list_byte (l ++ [c]), None, rest).
Proof.
  intros Hl. unfold Buffer_ReadString.
  assert (bytes_IndexByte (l ++ c :: rest) c = Some (length l)) as ->
    by (apply bytes_IndexByte_Some; eauto).
  replace (S (length l)) with (length (l ++ [c]))
    by (rewrite length_app; simpl; lia).
  rewrite (cons_middle c l rest), (assoc_L (++)).
  by rewrite take_app_length, drop_app_length.
Qed.

Lemma Buffer_ReadString_None buf c line rest :
  Buffer_ReadString buf c = (line, None, rest) →
  ∃ l, (c ∉ l) ∧ buf = l ++ c :: rest ∧ line = string_of_list_byte (l ++ [c]).
Proof.
  unfold Buffer_ReadString.
  destruct (bytes_IndexByte buf c) as [i|] eqn:Hi; [|done].
  apply bytes_IndexByte_Some in Hi as (l & rest' & Hb & Hl & Hlen).
  subst buf i.
  replace (S (length l)) with (length (l ++ [c]))
    by (rewrite length_app; simpl; lia).
  rewrite (cons_middle c l rest'), (assoc_L (++)).
  rewrite take_app_length, drop_app_length.
  intros [= <- <-]. exists l.
  split_and!; [done|by rewrite <- (assoc_L (++))|done].
Qed.

Lemma Buffer_ReadString_EOF buf c :
  c ∉ buf → Buffer_ReadString buf c = (string_of_list_byte buf, Some io_EOF, []).
Proof.
  intros H. unfold Buffer_ReadString.
  by apply bytes_IndexByte_None in H as ->.
Qed.

End StringFacts.

(** ** The parameter loop *)

Section ParseFacts.

Lemma length_encodePair kv : length (encodePair kv) = pairBytes kv.
Proof.
  unfold encodePair, pairBytes. rewrite length_app. simpl.
  rewrite length_app, !length_list_byte_of_string. simpl. lia.
Qed.

Lemma parseParams_step buf params :
  parseParams buf params =
  match loopBody buf params with
  | Break => inr params
  | Return err => inl err
  | Next buf' params' => parseParams buf' params'
  end.
Proof.
  rewrite parseParams_equation_1. unfold inspect.
  enough (∀ step (e : loopBody buf params = step),
            parseParams_unfold_clause_1 buf params (step ↾ e) =
            match step with
            | Break => inr params
            | Return err => inl err
            | Next buf' params' => parseParams buf' params'
            end) as Hgen by apply Hgen.
  intros [] e; reflexivity.
Qed.

(** Induction along the iterations of the loop. *)
Lemma parseParams_loop_ind
    (Q : list byte → gmap string string
         → HandshakeError + gmap string string → Prop) :
  (∀ buf params, loopBody buf params = Break → Q buf params (inr params)) →
  (∀ buf params err,
     loopBody buf params = Return err → Q buf params (inl err)) →
  (∀ buf params buf' params' r,
     loopBody buf params = Next buf' params' →
     Q buf' params' r → Q buf params r) →
  ∀ buf params, Q buf params (parseParams buf params).
Proof.
  intros HBreak HReturn HNext buf.
  remember (length buf) as n eqn:Hn. revert buf Hn.
  induction n as [n IH] using lt_wf_ind. intros buf -> params.
  rewrite parseParams_step.
  destruct (loopBody buf params) as [|err|buf' params'] eqn:Hstep.
  - by apply HBreak.
  - by apply HReturn.
  - apply (HNext _ _ _ _ _ Hstep).
    apply (IH (length buf')); [|done].
    by eapply loopBody_shrinks.
Qed.

Lemma loopBody_pair k v rest params :
  wirePair k v →
  loopBody (encodePair (k, v) ++ rest) params = Next rest (<[k := v]> params).
Proof.
  intros (Hk & Hnk & Hnv). unfold loopBody, encodePair. simpl.
  rewrite <- (assoc_L (++)). simpl.
  rewrite (Buffer_ReadString_found _ _ _ Hnk), trimLast_bytes_snoc.
  rewrite string_of_list_byte_of_string.
  destruct (String.eqb_spec k ""); [done|].
  rewrite <- (assoc_L (++)). simpl.
  rewrite (Buffer_ReadString_found _ _ _ Hnv), trimLast_bytes_snoc.
  by rewrite string_of_list_byte_of_string.
Qed.

Lemma loopBody_terminator rest params :
  loopBody (x00 :: rest) params = Break.
Proof. done. Qed.

Lemma loopBody_Next buf params buf' params' :
  loopBody buf params = Next buf' params' →
  ∃ k v, wirePair k v ∧ buf = encodePair (k, v) ++ buf'
         ∧ params' = <[k := v]> params.
Proof.
  unfold loopBody.
  destruct (Buffer_ReadString buf x00) as [[key [[]|]] buf1] eqn:Hk; [done|].
  apply Buffer_ReadString_None in Hk as (lk & Hlk & -> & ->).
  rewrite trimLast_bytes_snoc.
  destruct (String.eqb_spec (string_of_list_byte lk) "") as [|Hne]; [done|].
  destruct (Buffer_ReadString buf1 x00) as [[value [[]|]] buf2] eqn:Hv;
    [done|].
  apply Buffer_ReadString_None in Hv as (lv & Hlv & -> & ->).
  rewrite trimLast_bytes_snoc. intros [= <- <-].
  exists (string_of_list_byte lk), (string_of_list_byte lv).
  split; [|split; [|done]].
  - split_and!; [done|by apply nulFree_string_of_list_byte..].
  - unfold encodePair. simpl. rewrite !list_byte_of_string_of_list_byte.
    rewrite <- !(assoc_L (++)). simpl. by rewrite <- (assoc_L (++)).
Qed.

(** The loop reads back the pairs that were written one after the
    other and closed by a NUL. *)
Lemma parseParams_encoded kvs rest params :
  Forall (λ kv, wirePair kv.1 kv.2) kvs →
  parseParams (concat (encodePair <$> kvs) ++ x00 :: rest) params
  = inr (foldl (λ m kv, <[kv.1 := kv.2]> m) params kvs).
Proof.
  intros Hkvs. revert params.
  induction Hkvs as [|[k v] kvs Hkv _ IH]; intros params; simpl.
  - by rewrite parseParams_step, loopBody_terminator.
  - rewrite parseParams_step, <- (assoc_L (++)), loopBody_pair by done.
    apply IH.
Qed.

(** Whatever the loop stores is a pair the wire format can carry. *)
Lemma parseParams_wirePair buf params :
  map_Forall wirePair params →
  ∀ P, parseParams buf params = inr P → map_Forall wirePair P.
Proof.
  apply (parseParams_loop_ind
           (λ buf params r, map_Forall wirePair params →
              ∀ P, r = inr P → map_Forall wirePair P)).
  - intros ???? P [= <-]. done.
  - done.
  - intros ? ? ? ? r (k & v & Hkv & -> & ->)%loopBody_Next IH Hwf.
    apply IH. by apply map_Forall_insert_2.
Qed.

End ParseFacts.

(** ** The size of a map on the wire *)

Section SizeFacts.

Lemma sum_list_with_submseteq {A} (f : A → nat) l1 l2 :
  l1 ⊆+ l2 → (sum_list_with f l1 ≤ sum_list_with f l2)%nat.
Proof. induction 1; simpl; lia. Qed.

Lemma mapBytes_empty : mapBytes ∅ = 0%nat.
Proof. unfold mapBytes. by rewrite map_to_list_empty. Qed.

Lemma mapBytes_mono m1 m2 : m1 ⊆ m2 → (mapBytes m1 ≤ mapBytes m2)%nat.
Proof.
  intros H. apply sum_list_with_submseteq. by apply map_to_list_submseteq.
Qed.

Lemma mapBytes_insert_fresh m k v :
  m !! k = None →
  mapBytes (<[k := v]> m) = (pairBytes (k, v) + mapBytes m)%nat.
Proof.
  intros H. unfold mapBytes. by rewrite map_to_list_insert.
Qed.

Lemma mapBytes_insert_le m k v :
  (mapBytes (<[k := v]> m) ≤ pairBytes (k, v) + mapBytes m)%nat.
Proof.
  rewrite <- insert_delete_eq.
  rewrite mapBytes_insert_fresh by apply lookup_delete_eq.
  pose proof (mapBytes_mono _ _ (delete_subseteq m k)). lia.
Qed.

Lemma mapBytes_lookup m k v :
  m !! k = Some v → (pairBytes (k, v) ≤ mapBytes m)%nat.
Proof.
  intros H. apply (sum_list_with_in (k, v) pairBytes).
  by apply elem_of_map_to_list.
Qed.

Lemma mapBytes_enumeration kvs m :
  kvs ≡ₚ map_to_list m → sum_list_with pairBytes kvs = mapBytes m.
Proof. intros H. unfold mapBytes. by rewrite H. Qed.

(** The loop stores no more bytes than it reads. *)
Lemma parseParams_mapBytes buf params P :
  parseParams buf params = inr P →
  (mapBytes P ≤ mapBytes params + length buf)%nat.
Proof.
  revert P.
  apply (parseParams_loop_ind
           (λ buf params r, ∀ P, r = inr P →
              (mapBytes P ≤ mapBytes params + length buf)%nat)).
  - intros ??? P [= <-]. lia.
  - done.
  - intros b p b' p' r (k & v & Hkv & -> & ->)%loopBody_Next IH P HP.
    specialize (IH P HP). rewrite length_app, length_encodePair.
    pose proof (mapBytes_insert_le p k v). lia.
Qed.

End SizeFacts.

(** ** Loops over the entries of a map *)

Section RangeFacts.

Context (keep : string → Prop) `{!∀ k, Decision (keep k)}.
Context (f : gmap string string → string * string → gmap string string).
Hypothesis f_spec :
  ∀ b k v, f b (k, v) = if decide (keep k) then <[k := v]> b else b.

Lemma foldl_insert_other kvs acc k :
  k ∉ kvs.*1 ∨ ¬ keep k → foldl f acc kvs !! k = acc !! k.
Proof.
  revert acc. induction kvs as [|[k' v'] kvs IH]; intros acc Hk; [done|].
  simpl. rewrite IH.
  - rewrite f_spec. case_decide; [|done].
    apply lookup_insert_ne. intros ->.
    destruct Hk as [Hk|Hk]; [|done].
    apply Hk. simpl. apply elem_of_cons. by left.
  - destruct Hk as [Hk|Hk]; [left|by right].
    intros Hin. apply Hk. simpl. apply elem_of_cons. by right.
Qed.

Lemma foldl_insert_entry kvs acc k v :
  NoDup kvs.*1 → (k, v) ∈ kvs → keep k →
  foldl f acc kvs !! k = Some v.
Proof.
  revert acc. induction kvs as [|[k' v'] kvs IH]; intros acc Hnd Hin Hk.
  { by apply elem_of_nil in Hin. }
  simpl in *. apply NoDup_cons in Hnd as [Hk' Hnd].
  apply elem_of_cons in Hin as [[= <- <-]|Hin].
  - rewrite foldl_insert_other by by left.
    rewrite f_spec. case_decide; [|done]. apply lookup_insert_eq.
  - by apply IH.
Qed.

(** Whatever the order of the visit, the loop leaves the entries of the
    map whose key is kept. *)
Lemma foldl_insert_enumeration kvs m :
  kvs ≡ₚ map_to_list m →
  foldl f ∅ kvs = filter (λ kv, keep kv.1) m.
Proof.
  intros Hperm. apply map_eq. intros k.
  assert (NoDup kvs.*1) as Hnd
    by (rewrite Hperm; apply NoDup_fst_map_to_list).
  destruct (filter (λ kv, keep kv.1) m !! k) as [v|] eqn:Hk.
  - apply map_lookup_filter_Some in Hk as [Hk Hkeep].
    apply foldl_insert_entry; [done| |done].
    rewrite Hperm. by apply elem_of_map_to_list.
  - rewrite foldl_insert_other; [done|].
    apply map_lookup_filter_None in Hk as [Hk|Hk].
    + left. intros ([k' v] & -> & Hin)%list_elem_of_fmap.
      rewrite Hperm in Hin. apply elem_of_map_to_list in Hin.
      simpl in Hk. congruence.
    + destruct (decide (keep k)) as [Hkeep|]; [|by right].
      left. intros ([k' v] & -> & Hin)%list_elem_of_fmap.
      rewrite Hperm in Hin. apply elem_of_map_to_list in Hin.
      by apply (Hk v).
Qed.

End RangeFacts.

Lemma foldl_insert_all (kvs : list (string * string))
    (m : gmap string string) :
  kvs ≡ₚ map_to_list m →
  foldl (λ (m : gmap string string) kv, <[kv.1 := kv.2]> m) ∅ kvs = m.
Proof.
  intros Hperm.
  rewrite (foldl_insert_enumeration (λ _, True) _) with (m := m); [|done..].
  apply map_filter_id. done.
Qed.

(** ** Writing into a zeroed buffer *)

Section SliceFacts.

Local Ltac lengths :=
  rewrite ?length_app, ?length_list_byte_of_string; simpl; lia.

Lemma bind_Some {A B} (x : A) (f : A → option B) : Some x ≫= f = f x.
Proof. done. Qed.

Lemma slice_copy_zeros w pad src off :
  off = length w → (length src ≤ pad)%nat →
  slice_copy (w ++ replicate pad x00) off src
  = Some ((w ++ src) ++ replicate (pad - length src) x00).
Proof.
  intros -> Hpad. unfold slice_copy.
  rewrite length_app, length_replicate. case_decide; [|lia].
  replace (length w + pad - length w)%nat with pad by lia.
  rewrite Nat.min_r by done.
  rewrite take_app_length, (take_ge src) by done.
  rewrite drop_app_add, drop_replicate.
  by rewrite <- (assoc_L (++)).
Qed.

Lemma slice_set_zeros w pad c off :
  off = length w → (1 ≤ pad)%nat →
  slice_set (w ++ replicate pad x00) off c
  = Some ((w ++ [c]) ++ replicate (pad - 1) x00).
Proof.
  intros -> Hpad. unfold slice_set.
  rewrite length_app, length_replicate. case_decide; [|lia].
  destruct pad as [|pad]; [lia|].
  rewrite insert_app_r_alt by lia.
  replace (length w - length w)%nat with 0%nat by lia. simpl.
  rewrite Nat.sub_0_r. by rewrite <- (assoc_L (++)).
Qed.

Lemma slice_PutUint32_zeros w pad v lo hi :
  lo = length w → hi = (lo + 4)%nat → (4 ≤ pad)%nat →
  slice_PutUint32 (w ++ replicate pad x00) lo hi v
  = Some ((w ++ BigEndian_PutUint32 v) ++ replicate (pad - 4) x00).
Proof.
  intros -> -> Hpad. unfold slice_PutUint32.
  rewrite length_app, length_replicate. case_decide; [|lia].
  rewrite take_app_length, drop_app_add, drop_replicate.
  by rewrite <- (assoc_L (++)).
Qed.

Lemma writePair_zeros w pad kv off :
  off = length w → (pairBytes kv ≤ pad)%nat →
  writePair (w ++ replicate pad x00, off) kv
  = Some ((w ++ encodePair kv) ++ replicate (pad - pairBytes kv) x00,
          (off + pairBytes kv)%nat).
Proof.
  destruct kv as [key value]. unfold pairBytes, writePair. simpl.
  intros -> Hpad.
  rewrite slice_copy_zeros by lengths. simpl.
  rewrite slice_set_zeros by lengths. simpl.
  rewrite slice_copy_zeros by lengths. simpl.
  rewrite slice_set_zeros by lengths. simpl.
  f_equal. f_equal; [|lia].
  unfold encodePair. simpl. rewrite <- !(assoc_L (++)). simpl.
  rewrite <- !(assoc_L (++)). simpl.
  rewrite !length_list_byte_of_string.
  by replace (pad - String.length key - 1 - String.length value - 1)%nat
    with (pad - (String.length key + 1 + String.length value + 1))%nat
    by lia.
Qed.

Lemma foldl_writePair_zeros kvs w pad off :
  off = length w → (sum_list_with pairBytes kvs ≤ pad)%nat →
  foldl (λ state kv, state ≫= λ state, writePair state kv)
        (Some (w ++ replicate pad x00, off)) kvs
  = Some ((w ++ concat (encodePair <$> kvs))
            ++ replicate (pad - sum_list_with pairBytes kvs) x00,
          (off + sum_list_with pairBytes kvs)%nat).
Proof.
  revert w pad off.
  induction kvs as [|kv kvs IH]; intros w pad off -> Hpad.
  - simpl. by rewrite (right_id_L [] (++)), Nat.sub_0_r, Nat.add_0_r.
  - simpl in Hpad. cbn [foldl fmap list_fmap concat sum_list_with].
    change (Some (w ++ replicate pad x00, length w)
              ≫= (λ state, writePair state kv))
      with (writePair (w ++ replicate pad x00, length w) kv).
    rewrite writePair_zeros by (done || lia).
    rewrite IH by (rewrite ?length_app, ?length_encodePair; lia).
    by rewrite <- !(assoc_L (++)), Nat.sub_add_distr, Nat.add_assoc.
Qed.

End SliceFacts.

(** ** [rebuildStartupMessage] *)

Section RebuildFacts.

Context (range : nat → gmap string string → list (string * string)).
Hypothesis range_enumerates : ∀ site m, range site m ≡ₚ map_to_list m.

Lemma foldl_totalLength kvs a :
  foldl (λ totalLength '(key, value),
           (totalLength
            + (String.length key + 1 + String.length value + 1))%nat)
        a kvs
  = (a + sum_list_with pairBytes kvs)%nat.
Proof.
  revert a. induction kvs as [|[k v] kvs IH]; intros a; simpl; [lia|].
  rewrite IH. unfold pairBytes. simpl. lia.
Qed.

Lemma length_concat_encodePair kvs :
  length (concat (encodePair <$> kvs)) = sum_list_with pairBytes kvs.
Proof.
  induction kvs as [|kv kvs IH]; [done|].
  cbn [concat fmap list_fmap sum_list_with].
  by rewrite length_app, length_encodePair, IH.
Qed.

Lemma length_encodedFrame total v kvs :
  length (encodedFrame total v kvs)
  = (4 + 4 + sum_list_with pairBytes kvs + 1)%nat.
Proof.
  unfold encodedFrame.
  rewrite !length_app, !length_BigEndian_PutUint32, length_concat_encodePair.
  simpl. lia.
Qed.

(** The buffer is filled exactly: no write is out of range, and the
    result is the frame with the pairs in the order of the second
    loop. *)
Lemma rebuildStartupMessage_encodedFrame v m :
  rebuildStartupMessage range v m
  = Some (encodedFrame (encodedLength m) v (range 2 m)).
Proof.
  unfold rebuildStartupMessage.
  rewrite foldl_totalLength, (mapBytes_enumeration _ m) by done.
  replace (S (4 + 4 + mapBytes m)) with (encodedLength m)
    by (unfold encodedLength; lia).
  change (replicate (encodedLength m) x00)
    with ([] ++ replicate (encodedLength m) x00).
  rewrite slice_PutUint32_zeros by (done || unfold encodedLength; lia).
  rewrite bind_Some.
  rewrite slice_PutUint32_zeros by (done || unfold encodedLength; lia).
  rewrite bind_Some.
  rewrite foldl_writePair_zeros
    by (done || rewrite (mapBytes_enumeration _ m) by done;
                unfold encodedLength; lia).
  rewrite bind_Some, (mapBytes_enumeration _ m) by done.
  rewrite slice_set_zeros;
    [|rewrite !length_app, length_concat_encodePair,
        (mapBytes_enumeration _ m) by done; simpl; lia
     |unfold encodedLength; lia].
  f_equal. unfold encodedFrame, encodedLength.
  replace (4 + 4 + mapBytes m + 1 - 4 - 4 - mapBytes m - 1)%nat
    with 0%nat by lia.
  simpl. by rewrite (right_id_L [] (++)).
Qed.

Lemma length_rebuildStartupMessage v m frame :
  rebuildStartupMessage range v m = Some frame →
  length frame = encodedLength m.
Proof.
  rewrite rebuildStartupMessage_encodedFrame. intros [= <-].
  rewrite length_encodedFrame, (mapBytes_enumeration _ m) by done. done.
Qed.

End RebuildFacts.

(** ** [strings.Split] and [strings.Join] *)

Section SplitFacts.

Lemma strings_Split_cons s sep :
  ∃ p ps, strings_Split s sep = p :: ps.
Proof.
  destruct s as [|c s]; simpl; [eauto|].
  destruct (Ascii.eqb c sep); [eauto|].
  destruct (strings_Split s sep); eauto.
Qed.

Lemma strings_Join_cons_cons h p ps sep :
  strings_Join (h :: p :: ps) sep = h +:+ sep +:+ strings_Join (p :: ps) sep.
Proof. done. Qed.

(** Joining what was split gives the string back. *)
Lemma strings_Join_Split s sep :
  strings_Join (strings_Split s sep) (String sep "") = s.
Proof.
  induction s as [|c s IH]; simpl; [done|].
  destruct (strings_Split_cons s sep) as (p & ps & Hs).
  rewrite Hs in *. destruct (Ascii.eqb_spec c sep) as [->|_].
  - rewrite strings_Join_cons_cons, IH. done.
  - destruct ps as [|q ps].
    + simpl in *. by rewrite IH.
    + rewrite strings_Join_cons_cons in *. by rewrite <- IH.
Qed.

Lemma strings_Join_take_length parts sep k :
  (String.length (strings_Join (take k parts) sep)
   ≤ String.length (strings_Join parts sep))%nat.
Proof.
  revert k. induction parts as [|h [|p ps] IH]; intros [|k];
    try (simpl; lia).
  - destruct k; simpl; lia.
  - specialize (IH k). destruct k as [|k].
    + rewrite strings_Join_cons_cons, !string_length_app. simpl. lia.
    + change (take (S (S k)) (h :: p :: ps))
        with (h :: p :: take k ps).
      change (take (S k) (p :: ps)) with (p :: take k ps) in IH.
      rewrite !strings_Join_cons_cons, !string_length_app. lia.
Qed.

Lemma strings_Split_nulFree s sep :
  nulFree s → Forall nulFree (strings_Split s sep).
Proof.
  induction s as [|c s IH]; simpl; intros Hs.
  - by apply Forall_singleton.
  - apply nulFree_String in Hs as [Hc Hs]. specialize (IH Hs).
    destruct (Ascii.eqb c sep).
    + apply Forall_cons. split; [apply nulFree_empty|done].
    + destruct (strings_Split s sep) as [|p ps].
      * apply Forall_singleton, nulFree_String. split; [done|].
        apply nulFree_empty.
      * apply Forall_cons in IH as [Hp Hps].
        apply Forall_cons. split; [|done]. by apply nulFree_String.
Qed.

Lemma strings_Join_nulFree parts sep :
  Forall nulFree parts → nulFree sep → nulFree (strings_Join parts sep).
Proof.
  intros Hparts Hsep.
  induction Hparts as [|h parts Hh Hparts IH]; [apply nulFree_empty|].
  destruct parts as [|p ps]; [done|].
  rewrite strings_Join_cons_cons, !nulFree_app. done.
Qed.

Lemma index_nulFree parts i : Forall nulFree parts → nulFree (index parts i).
Proof.
  intros Hparts. unfold index. revert i.
  induction Hparts as [|h parts Hh Hparts IH]; intros [|i]; simpl;
    try done; apply nulFree_empty.
Qed.

End SplitFacts.

(** ** The tenant address parser *)

Section TenantFacts.

Local Ltac nul_free_literal :=
  unfold nulFree; simpl;
  repeat (apply not_elem_of_cons; split; [done|]); apply not_elem_of_nil.

Lemma parseUsername_no_user P : P !! "user" = None → parseUsername P = P.
Proof. intros H. unfold parseUsername. by rewrite H. Qed.

(** What the parser adds for a user name [u]: the pool flag, and
    possibly a deployment id [d] with a user name [nu]. *)
Lemma parseUsername_user P u :
  P !! "user" = Some u →
  ∃ pooled derived,
    (pooled = "true" ∨ pooled = "false")
    ∧ parseUsername P
      = match derived with
        | Some (d, nu) =>
            <["username" := nu]>
              (<["deployment_id" := d]> (<["pooled" := pooled]> P))
        | None => <["pooled" := pooled]> P
        end
    ∧ ∀ d nu, derived = Some (d, nu) →
        (String.length nu ≤ String.length u)%nat
        ∧ (nulFree u → nulFree d ∧ nulFree nu).
Proof.
  intros Hu. unfold parseUsername. rewrite Hu.
  assert (∀ k, (String.length (strings_Join
                   (take k (strings_Split u ".")) ".")
                ≤ String.length u)%nat) as Hlen.
  { intros k. rewrite <- (strings_Join_Split u ".") at 2.
    apply strings_Join_take_length. }
  assert (∀ i k, nulFree u →
            nulFree (index (strings_Split u ".") i)
            ∧ nulFree (strings_Join (take k (strings_Split u ".")) "."))
    as Hnul.
  { intros i k Hfree. pose proof (strings_Split_nulFree u "." Hfree).
    split; [by apply index_nulFree|].
    apply strings_Join_nulFree; [by apply Forall_take|nul_free_literal]. }
  case_decide.
  - destruct (String.eqb _ "pool").
    + case_decide.
      * eexists "true", (Some (_, _)). split_and!; [by left|done|].
        intros d nu [= <- <-]. split; [apply Hlen|apply Hnul].
      * exists "true", None. split_and!; [by left|done|done].
    + eexists "false", (Some (_, _)). split_and!; [by right|done|].
      intros d nu [= <- <-]. split; [apply Hlen|apply Hnul].
  - exists "false", None. split_and!; [by right|done|done].
Qed.

(** Pool flag: always set when there is a user. *)
Lemma parseUsername_pooled P u :
  P !! "user" = Some u →
  parseUsername P !! "pooled" = Some "true"
  ∨ parseUsername P !! "pooled" = Some "false".
Proof.
  intros (pooled & derived & Hpooled & -> & _)%parseUsername_user.
  destruct derived as [[d nu]|].
  - rewrite !lookup_insert_ne, lookup_insert_eq by done.
    destruct Hpooled as [-> | ->]; eauto.
  - rewrite lookup_insert_eq. destruct Hpooled as [-> | ->]; eauto.
Qed.

(** The parser touches only the three keys that the filter holds
    back. *)
Lemma parseUsername_passesFilter P k :
  passesFilter k → parseUsername P !! k = P !! k.
Proof.
  intros (Hd & Hp & Hn).
  destruct (P !! "user") as [u|] eqn:Hu;
    [|by rewrite parseUsername_no_user].
  apply parseUsername_user in Hu as (pooled & derived & _ & -> & _).
  destruct derived as [[d nu]|]; by rewrite !lookup_insert_ne.
Qed.

Lemma parseUsername_wirePair P :
  map_Forall wirePair P → map_Forall wirePair (parseUsername P).
Proof.
  intros HP.
  destruct (P !! "user") as [u|] eqn:Hu;
    [|by rewrite parseUsername_no_user].
  pose proof (HP _ _ Hu) as (_ & _ & Hfree).
  apply parseUsername_user in Hu as (pooled & derived & Hpooled & -> & Hd).
  assert (wirePair "pooled" pooled).
  { split_and!; [done|nul_free_literal|].
    destruct Hpooled as [-> | ->]; nul_free_literal. }
  destruct derived as [[d nu]|]; [|by apply map_Forall_insert_2].
  destruct (Hd d nu eq_refl) as [_ [Hfd Hfnu]]; [done|].
  repeat apply map_Forall_insert_2; try done.
  - split_and!; [done|nul_free_literal|done].
  - split_and!; [done|nul_free_literal|done].
Qed.

(** The user name in the metadata is the client's own [username]
    parameter or a prefix of the user. *)
Lemma parseUsername_username P u nu :
  P !! "user" = Some u →
  parseUsername P !! "username" = Some nu →
  P !! "username" = Some nu ∨ (String.length nu ≤ String.length u)%nat.
Proof.
  intros Hu. pose proof Hu as Hu'.
  apply parseUsername_user in Hu' as (pooled & derived & _ & -> & Hd).
  destruct derived as [[d nu']|].
  - rewrite lookup_insert_eq. intros [= <-]. right.
    by destruct (Hd d nu' eq_refl).
  - rewrite lookup_insert_ne by done. by left.
Qed.

Lemma filter_keys_ext (keep : string → Prop) `{!∀ k, Decision (keep k)}
    (m1 m2 : gmap string string) :
  (∀ k, keep k → m1 !! k = m2 !! k) →
  filter (λ kv, keep kv.1) m1 = filter (λ kv, keep kv.1) m2.
Proof.
  intros Hext. apply map_eq. intros k. rewrite !map_lookup_filter.
  destruct (decide (keep k)) as [Hk|Hk].
  - by rewrite Hext.
  - destruct (m1 !! k), (m2 !! k); simpl; by rewrite ?option_guard_False.
Qed.

End TenantFacts.

(** ** The replay bytes *)

Section HandshakeFacts.

Context (range : nat → gmap string string → list (string * string)).
Context (tlsServerHandshake : Conn → string * Conn + Conn).

Lemma storeReplay_no_user header payload params :
  params !! "user" = None →
  storeReplay range header payload params = Some params.
Proof. intros H. unfold storeReplay. by rewrite H. Qed.

Lemma fullMsg_header (header payload : list byte) :
  slice_copy (replicate (length header + length payload) x00) 0 header
  = Some (header ++ replicate (length payload) x00).
Proof.
  change (replicate (length header + length payload) x00)
    with ([] ++ replicate (length header + length payload) x00).
  rewrite slice_copy_zeros by (done || lia).
  by replace (length header + length payload - length header)%nat
    with (length payload) by lia.
Qed.

Lemma fullMsg_payload (header payload : list byte) :
  length header = 4%nat →
  slice_copy (header ++ replicate (length payload) x00) 4 payload
  = Some (header ++ payload).
Proof.
  intros Hh. rewrite slice_copy_zeros by (done || lia).
  rewrite Nat.sub_diag. simpl. by rewrite (right_id_L [] (++)).
Qed.

(** Without a rewrite the replay bytes are header and payload. *)
Lemma storeReplay_verbatim header payload params u :
  length header = 4%nat →
  params !! "user" = Some u →
  params !! "username" = None ∨ params !! "username" = Some u →
  storeReplay range header payload params
  = Some (<["_raw_startup_message" := string_of_list_byte (header ++ payload)]>
            params).
Proof.
  intros Hh Hu Hn. unfold storeReplay. rewrite Hu. cbn [commaOk].
  destruct Hn as [-> | ->]; cbn [commaOk andb].
  - by rewrite fullMsg_header, bind_Some, fullMsg_payload.
  - rewrite bool_decide_eq_false_2 by (intros ?; done).
    by rewrite fullMsg_header, bind_Some, fullMsg_payload.
Qed.

(** The replay step only adds the reserved key. *)
Lemma storeReplay_lookup header payload params md k :
  storeReplay range header payload params = Some md →
  k ≠ "_raw_startup_message" → md !! k = params !! k.
Proof.
  intros Hmd Hk. unfold storeReplay in Hmd.
  destruct (commaOk (params !! "user")) as [originalUser [|]];
    [|by injection Hmd as <-].
  destruct (commaOk (params !! "username")) as [newUser ok].
  destruct (ok && bool_decide (newUser ≠ originalUser)).
  - destruct (rebuildStartupMessage _ _ _) as [rebuiltMsg|]; [|done].
    injection Hmd as <-. by rewrite lookup_insert_ne.
  - destruct (slice_copy _ 0 header) as [fullMsg|]; [|done].
    simpl in Hmd. destruct (slice_copy fullMsg 4 payload); [|done].
    injection Hmd as <-. by rewrite lookup_insert_ne.
Qed.

Hypothesis range_enumerates : ∀ site m, range site m ≡ₚ map_to_list m.

(** With a rewrite they are the frame that carries [buildParamsOf]. *)
Lemma storeReplay_rebuilt header payload params u nu :
  params !! "user" = Some u →
  params !! "username" = Some nu →
  nu ≠ u →
  storeReplay range header payload params
  = Some (<["_raw_startup_message" :=
              string_of_list_byte
                (encodedFrame (encodedLength (buildParamsOf params nu))
                   (BigEndian_Uint32 (take 4 payload))
                   (range 2 (buildParamsOf params nu)))]> params).
Proof.
  intros Hu Hn Hne. unfold storeReplay. rewrite Hu, Hn. cbn [commaOk andb].
  rewrite bool_decide_eq_true_2 by done.
  rewrite (foldl_insert_enumeration passesFilter _) with (m := params);
    [|done..].
  fold (buildParamsOf params nu).
  by rewrite rebuildStartupMessage_encodedFrame.
Qed.

(** No write of the handshake is out of range. *)
Lemma storeReplay_is_Some header payload params :
  length header = 4%nat →
  is_Some (storeReplay range header payload params).
Proof.
  intros Hh. destruct (params !! "user") as [u|] eqn:Hu;
    [|by rewrite storeReplay_no_user].
  destruct (params !! "username") as [nu|] eqn:Hn.
  - destruct (decide (nu = u)) as [->|].
    + erewrite storeReplay_verbatim; eauto.
    + erewrite storeReplay_rebuilt; eauto.
  - erewrite storeReplay_verbatim; eauto.
Qed.

End HandshakeFacts.

(** ** Runs of the handshake *)

Section HandshakeRuns.

Context (range : nat → gmap string string → list (string * string)).
Context (tlsServerHandshake : Conn → string * Conn + Conn).
Hypothesis range_enumerates : ∀ site m, range site m ≡ₚ map_to_list m.

Lemma handleStartup_Done header payload conn md conn' :
  handleStartup range header payload conn = Done md conn' →
  conn' = conn ∧ (4 ≤ length payload)%nat
  ∧ ∃ P, parseParams (drop 4 payload) ∅ = inr P
         ∧ storeReplay range header payload (parseUsername P) = Some md.
Proof.
  unfold handleStartup. case_decide; [done|].
  destruct (parseParams _ _) as [err|P]; [done|].
  destruct (storeReplay _ _ _ _) as [md'|] eqn:Hmd; [|done].
  intros [= <- <-]. split_and!; [done|lia|eauto].
Qed.

(** A handshake that succeeds has read a startup frame and returns the
    parameters of that frame, extended by the tenant parser and the
    replay step. *)
Lemma Handshake_Done fuel conn md conn' :
  Handshake range tlsServerHandshake fuel conn = Done md conn' →
  ∃ header payload P,
    readsStartup tlsServerHandshake conn header payload conn' P
    ∧ storeReplay range header payload (parseUsername P) = Some md.
Proof.
  revert conn. induction fuel as [|fuel IH]; intros conn; [done|]. simpl.
  destruct (readFrame conn) as [header payload c1|err c1] eqn:Hframe; [|done].
  destruct (isSSLRequest payload) eqn:Hssl.
  - destruct (conn_Write c1 _) as [c2|] eqn:Hw; [|done].
    destruct (tlsServerHandshake c2) as [[err c3]|tlsConn] eqn:Htls; [done|].
    intros (h & p & P & (c0 & Hup & Hrest) & Hmd)%IH.
    exists h, p, P. split; [|done]. exists c0. split; [|done].
    by eapply upgrades_tls.
  - intros (-> & Hlen & P & HP & Hmd)%handleStartup_Done.
    exists header, payload, P. split; [|done].
    exists conn. split_and!; try done. apply upgrades_here.
Qed.

(** Conversely, with enough fuel for the upgrades, the handshake on a
    connection that delivers a startup frame succeeds. *)
Lemma Handshake_readsStartup conn header payload conn' P md :
  readsStartup tlsServerHandshake conn header payload conn' P →
  storeReplay range header payload (parseUsername P) = Some md →
  ∃ fuel, ∀ fuel', (fuel ≤ fuel')%nat →
    Handshake range tlsServerHandshake fuel' conn = Done md conn'.
Proof.
  intros (c0 & Hup & Hframe & Hssl & Hlen & HP) Hmd.
  induction Hup as [c|c h p c1 c2 tlsConn c' Hf Hs Hw Htls Hup IH].
  - exists 1%nat. intros [|fuel'] Hfuel; [lia|]. simpl.
    rewrite Hframe, Hssl. unfold handleStartup.
    case_decide; [lia|]. by rewrite HP, Hmd.
  - destruct (IH Hframe) as [fuel Hfuel]. exists (S fuel).
    intros [|fuel'] Hle; [lia|]. simpl. rewrite Hf, Hs, Hw, Htls.
    apply Hfuel. lia.
Qed.

(** The startup frame a handshake reads is determined by the
    connection. *)
Lemma readsStartup_functional conn h1 p1 c1 P1 h2 p2 c2 P2 :
  readsStartup tlsServerHandshake conn h1 p1 c1 P1 →
  readsStartup tlsServerHandshake conn h2 p2 c2 P2 →
  h1 = h2 ∧ p1 = p2 ∧ c1 = c2 ∧ P1 = P2.
Proof.
  intros (a1 & Hup1 & Hf1 & Hs1 & _ & HP1) (a2 & Hup2 & Hf2 & Hs2 & _ & HP2).
  assert (a1 = a2) as Heq.
  { clear HP1 HP2.
    induction Hup1 as [c|c h p d1 d2 tlsConn c' Hf Hs Hw Htls Hup IH].
    - inversion Hup2 as [|? h' p' e1 e2 tlsConn' ? Hf' Hs' Hw' Htls' Hup'];
        [done|]. congruence.
    - inversion Hup2 as [|? h' p' e1 e2 tlsConn' ? Hf' Hs' Hw' Htls' Hup'];
        subst; [congruence|].
      apply IH; [done..|]. congruence. }
  subst a2. rewrite Hf1 in Hf2. injection Hf2 as <- <- <-.
  rewrite HP1 in HP2. by injection HP2 as <-.
Qed.

(** A successful handshake returns the parameters of the startup frame it
    read, extended by the tenant parser and the replay step. *)
Lemma Handshake_Done_reads fuel conn md conn' header payload conn0 P :
  readsStartup tlsServerHandshake conn header payload conn0 P →
  Handshake range tlsServerHandshake fuel conn = Done md conn' →
  conn' = conn0
  ∧ length header = 4%nat
  ∧ storeReplay range header payload (parseUsername P) = Some md.
Proof.
  intros Hreads (h & p & P' & Hreads' & Hmd)%Handshake_Done.
  destruct (readsStartup_functional _ _ _ _ _ _ _ _ _ Hreads Hreads')
    as (-> & -> & -> & ->).
  split_and!; [done| |done].
  destruct Hreads as (c0 & _ & Hframe & _).
  by apply readFrame_FrameRead in Hframe as (? & _).
Qed.

(** The handshake does not panic. *)
Lemma Handshake_no_Panic fuel conn :
  Handshake range tlsServerHandshake fuel conn ≠ Panic.
Proof.
  revert conn. induction fuel as [|fuel IH]; intros conn; [done|]. simpl.
  destruct (readFrame conn) as [header payload c1|err c1] eqn:Hframe; [|done].
  destruct (isSSLRequest payload).
  - destruct (conn_Write c1 _) as [c2|]; [|done].
    destruct (tlsServerHandshake c2) as [[err c3]|tlsConn]; [done|]. apply IH.
  - unfold handleStartup. case_decide; [done|].
    destruct (parseParams _ _) as [err|P]; [done|].
    destruct (storeReplay_is_Some range range_enumerates header payload
                (parseUsername P)) as [md ->]; [|done].
    by apply readFrame_FrameRead in Hframe as (? & _).
Qed.

(** The metadata agree with the client's parameters on every key that
    the handshake does not derive. *)
Lemma Handshake_metadata_lookup header payload P md k :
  storeReplay range header payload (parseUsername P) = Some md →
  passesFilter k → k ≠ "_raw_startup_message" →
  md !! k = P !! k.
Proof.
  intros Hmd Hk Hraw.
  rewrite (storeReplay_lookup range header payload
             (parseUsername P) md k Hmd Hraw).
  by apply parseUsername_passesFilter.
Qed.

End HandshakeRuns.

(** * The claims *)

Lemma rangeSorted_enumerates site m : rangeSorted site m ≡ₚ map_to_list m.
Proof. done. Qed.

(** ** C2: the literal examples of the tenant parser *)

(** C2.  On the user names of the specification the tenant parser adds
    exactly: alice.dep42 gives username alice, deployment_id dep42, pooled
    false; alice.dep42.pool gives alice, dep42, true; a.b.c.dep42 gives
    a.b.c, dep42, false; a.b.c.dep42.pool gives a.b.c, dep42, true; solo
    gives pooled false and neither deployment_id nor username. *)
Theorem tenant_parser_examples (P : gmap string string) :
  parseUsername (<["user" := "alice.dep42"]> P)
  = <["username" := "alice"]> (<["deployment_id" := "dep42"]>
      (<["pooled" := "false"]> (<["user" := "alice.dep42"]> P)))
  ∧ parseUsername (<["user" := "alice.dep42.pool"]> P)
    = <["username" := "alice"]> (<["deployment_id" := "dep42"]>
        (<["pooled" := "true"]> (<["user" := "alice.dep42.pool"]> P)))
  ∧ parseUsername (<["user" := "a.b.c.dep42"]> P)
    = <["username" := "a.b.c"]> (<["deployment_id" := "dep42"]>
        (<["pooled" := "false"]> (<["user" := "a.b.c.dep42"]> P)))
  ∧ parseUsername (<["user" := "a.b.c.dep42.pool"]> P)
    = <["username" := "a.b.c"]> (<["deployment_id" := "dep42"]>
        (<["pooled" := "true"]> (<["user" := "a.b.c.dep42.pool"]> P)))
  ∧ parseUsername (<["user" := "solo"]> P)
    = <["pooled" := "false"]> (<["user" := "solo"]> P)
  ∧ parseUsername {["user" := "solo"]} !! "pooled" = Some "false"
  ∧ parseUsername {["user" := "solo"]} !! "deployment_id" = None
  ∧ parseUsername {["user" := "solo"]} !! "username" = None.
Proof.
  unfold parseUsername. rewrite !lookup_insert_eq, lookup_singleton_eq.
  split_and!; reflexivity.
Qed.

(** ** C5: the SSLRequest sentinel *)

Lemma isSSLRequest_sentinel payload :
  isSSLRequest payload = true
  ↔ (4 ≤ length payload)%nat ∧ take 4 payload = [x04; xd2; x16; x2f].
Proof.
  unfold isSSLRequest. case_decide as Hlen; [|split; [done|lia]].
  destruct payload as [|b0 [|b1 [|b2 [|b3 rest]]]]; simpl in Hlen; try lia.
  change (take 4 (b0 :: b1 :: b2 :: b3 :: rest)) with [b0; b1; b2; b3].
  rewrite Z.eqb_eq, int32_sslRequestCode by apply BigEndian_Uint32_range.
  split.
  - intros Hcode. split; [simpl; lia|].
    rewrite <- (BigEndian_PutUint32_Uint32 b0 b1 b2 b3), Hcode. reflexivity.
  - intros [_ [= -> -> -> ->]]. reflexivity.
Qed.

(** C5.  A frame that was read is treated as an SSLRequest, that is the
    proxy writes the single byte S and hands the connection to TLS, if and
    only if its payload has at least 4 bytes and the first 4 are 04 D2 16
    2F, the big-endian encoding of 80877103; every other frame is handled
    as a startup message. *)
Theorem ssl_sentinel_classification
    (range : nat → gmap string string → list (string * string))
    (tlsServerHandshake : Conn → string * Conn + Conn)
    (fuel : nat) (conn : Conn) (header payload : list byte) (conn' : Conn) :
  readFrame conn = FrameRead header payload conn' →
  (isSSLRequest payload = true
   ↔ (4 ≤ length payload)%nat ∧ take 4 payload = [x04; xd2; x16; x2f])
  ∧ BigEndian_PutUint32 80877103 = [x04; xd2; x16; x2f]
  ∧ (∀ c2, conn_Write conn' ["S"%byte] = Some c2 →
           outbound c2 = outbound conn' ++ ["S"%byte])
  ∧ Handshake range tlsServerHandshake (S fuel) conn
    = if isSSLRequest payload then
        match conn_Write conn' ["S"%byte] with
        | None => Failed ErrWriteSSL conn'
        | Some c2 =>
            match tlsServerHandshake c2 with
            | inl (err, c3) =>
                Failed ErrTLSHandshake
                  (default c3
                     (sendErrorResponse c3
                        (mkErrorResponse "FATAL" "08006"
                           ("TLS handshake failed: " +:+ err))))
            | inr tlsConn => Handshake range tlsServerHandshake fuel tlsConn
            end
        end
      else handleStartup range header payload conn'.
Proof.
  intros Hframe. split_and!.
  - apply isSSLRequest_sentinel.
  - reflexivity.
  - unfold conn_Write. destruct (writable conn'); [|done].
    by intros c2 [= <-].
  - simpl. by rewrite Hframe.
Qed.

Lemma ssl_sentinel_classification_witness :
  isSSLRequest (BigEndian_PutUint32 sslRequestCode) = true
  ∧ Handshake rangeSorted tlsRefuses 1 (client clientSSLRequest)
    = Failed ErrTLSHandshake
        (default
           (mkConn [] ["S"%byte; x15; x03; x03; x00; x02; x02; x0a] true)
           (sendErrorResponse
              (mkConn [] ["S"%byte; x15; x03; x03; x00; x02; x02; x0a] true)
              (mkErrorResponse "FATAL" "08006"
                 "TLS handshake failed: bad record"))).
Proof.
  pose proof (ssl_sentinel_classification rangeSorted tlsRefuses 0
                (client clientSSLRequest)
                (BigEndian_PutUint32 8) (BigEndian_PutUint32 sslRequestCode)
                (mkConn [] [] true) eq_refl) as (Hssl & _ & _ & Hrun).
  split; [apply Hssl; split; [simpl; lia|reflexivity]|].
  rewrite Hrun. reflexivity.
Defined.

(** ** C6: the invalid-frame condition *)

(** C6, as stated, fails: the header 80 00 00 00 reads as the unsigned
    length 2147483648, which is not less than 4, and the handshake fails
    with the invalid-length error all the same, since the code converts
    the length to a signed 32-bit integer. *)
Lemma invalid_frame_counterexample :
  let header := [x80; x00; x00; x00] in
  io_ReadFull (client header) 4 = (Some header, client [])
  ∧ BigEndian_Uint32 header = 2147483648
  ∧ ¬ (BigEndian_Uint32 header < 4)
  ∧ readFrame (client header)
    = FrameError (ErrInvalidLength (-2147483648)) (client [])
  ∧ Handshake rangeSorted tlsAccepts 1 (client header)
    = Failed (ErrInvalidLength (-2147483648)) (client []).
Proof. split_and!; vm_compute; (reflexivity || discriminate). Qed.

(** C6, amended.  After the 4-byte header was read, the frame is refused
    with the invalid-length error if and only if the header, read as a
    big-endian signed 32-bit integer, is less than 4, that is if the
    unsigned value L is less than 4 or at least 2^31; the handshake then
    fails with that error.  For every L from 4 to 2^31 - 1 the decoder goes
    on to read exactly L - 4 payload bytes. *)
Theorem invalid_frame_condition
    (range : nat → gmap string string → list (string * string))
    (tlsServerHandshake : Conn → string * Conn + Conn)
    (fuel : nat) (conn : Conn) (header : list byte) (conn1 : Conn) :
  io_ReadFull conn 4 = (Some header, conn1) →
  let L := BigEndian_Uint32 header in
  ((∃ n c, readFrame conn = FrameError (ErrInvalidLength n) c)
   ↔ L < 4 ∨ 2 ^ 31 ≤ L)
  ∧ (L < 4 ∨ 2 ^ 31 ≤ L →
     readFrame conn = FrameError (ErrInvalidLength (int32 L)) conn1
     ∧ Handshake range tlsServerHandshake (S fuel) conn
       = Failed (ErrInvalidLength (int32 L)) conn1)
  ∧ (4 ≤ L < 2 ^ 31 →
     readFrame conn
     = match io_ReadFull conn1 (Z.to_nat (L - 4)) with
       | (Some payload, conn2) => FrameRead header payload conn2
       | (None, conn2) => FrameError ErrReadBody conn2
       end)
  ∧ (∀ payload conn2,
       readFrame conn = FrameRead header payload conn2 →
       Z.of_nat (length payload) = L - 4
       ∧ inbound conn1 = payload ++ inbound conn2).
Proof.
  intros Hheader L.
  pose proof (BigEndian_Uint32_range header) as Hrange.
  pose proof (int32_lt_4 L Hrange) as Hlt.
  assert (L < 4 ∨ 2 ^ 31 ≤ L →
          readFrame conn = FrameError (ErrInvalidLength (int32 L)) conn1)
    as Hinvalid.
  { intros HL. unfold readFrame. rewrite Hheader. fold L.
    destruct (Z.ltb_spec (int32 L) 4); [done|]. apply Hlt in HL. lia. }
  assert (4 ≤ L < 2 ^ 31 →
          readFrame conn
          = match io_ReadFull conn1 (Z.to_nat (L - 4)) with
            | (Some payload, conn2) => FrameRead header payload conn2
            | (None, conn2) => FrameError ErrReadBody conn2
            end) as Hvalid.
  { intros HL. unfold readFrame. rewrite Hheader. fold L.
    rewrite int32_nonneg by lia.
    destruct (Z.ltb_spec L 4); [lia|].
    by destruct (io_ReadFull conn1 _) as [[payload|] conn2]. }
  split_and!.
  - split; [|eauto].
    intros (n & c & Hn). destruct (decide (L < 4 ∨ 2 ^ 31 ≤ L)); [done|].
    rewrite Hvalid in Hn by lia.
    by destruct (io_ReadFull conn1 _) as [[payload|] conn2].
  - intros HL. split; [by apply Hinvalid|].
    simpl. by rewrite Hinvalid.
  - done.
  - intros payload conn2 Hframe.
    pose proof Hframe as (_ & _ & Hlen & Hin & _)%readFrame_FrameRead.
    apply io_ReadFull_Some in Hheader as (Hh4 & Hin1 & _).
    split; [done|].
    rewrite Hin1 in Hin. by apply app_inv_head in Hin.
Qed.

Lemma invalid_frame_condition_witness :
  readFrame (client [x00; x00; x00; x03])
  = FrameError (ErrInvalidLength 3) (client []).
Proof.
  apply (invalid_frame_condition rangeSorted tlsAccepts 0
           (client [x00; x00; x00; x03]) [x00; x00; x00; x03] (client [])
           eq_refl).
  left. vm_compute. reflexivity.
Defined.

(** ** C7: the frame size ceiling *)

(** Reading a frame whose header declares the bytes that follow. *)
Lemma readFrame_app (header payload rest out : list byte) (w : bool) :
  length header = 4%nat →
  BigEndian_Uint32 header = 4 + Z.of_nat (length payload) →
  BigEndian_Uint32 header < 2 ^ 31 →
  readFrame (mkConn (header ++ payload ++ rest) out w)
  = FrameRead header payload (mkConn rest out w).
Proof.
  intros Hh HL Hmax. unfold readFrame.
  rewrite <- Hh at 1. rewrite io_ReadFull_app.
  rewrite int32_nonneg by lia.
  destruct (Z.ltb_spec (BigEndian_Uint32 header) 4); [lia|].
  replace (Z.to_nat (BigEndian_Uint32 header - 4)) with (length payload)
    by lia.
  by rewrite io_ReadFull_app.
Qed.

Lemma readFrame_invalid (header rest out : list byte) (w : bool) :
  length header = 4%nat →
  int32 (BigEndian_Uint32 header) < 4 →
  readFrame (mkConn (header ++ rest) out w)
  = FrameError (ErrInvalidLength (int32 (BigEndian_Uint32 header)))
      (mkConn rest out w).
Proof.
  intros Hh Hlt. unfold readFrame.
  pose proof (io_ReadFull_app header rest out w) as Hread.
  rewrite Hh in Hread. rewrite Hread.
  destruct (Z.ltb_spec (int32 (BigEndian_Uint32 header)) 4); [done|lia].
Qed.

(** C7, as stated, fails: with the ceiling at 64 KiB, a frame that
    declares 65537 bytes is not refused; the decoder reads its 65533
    payload bytes. *)
Lemma frame_ceiling_counterexample :
  let ceiling := 65536 in
  ceiling < BigEndian_Uint32 (take 4 oversizedFrame)
  ∧ readFrame (client oversizedFrame)
    = FrameRead (BigEndian_PutUint32 65537) oversizedPayload (client []).
Proof.
  split; [reflexivity|].
  unfold client, oversizedFrame.
  rewrite <- (right_id_L [] (++) oversizedPayload) at 1.
  apply readFrame_app; [done| |done].
  unfold oversizedPayload. rewrite length_replicate. reflexivity.
Qed.
(** C7, amended.  The decoder has no configurable ceiling and no
    frame-too-large error.  Whatever bound a declared length L exceeds: if
    L is at most 2^31 - 1 (and at least 4) the decoder asks for L - 4
    payload bytes, and reads them when the client sends that many; only a
    length of 2^31 or more is refused, with the invalid-length error, since
    it is negative as a signed 32-bit integer. *)
Theorem frame_size_ceiling (ceiling : Z)
    (conn : Conn) (header : list byte) (conn1 : Conn) :
  io_ReadFull conn 4 = (Some header, conn1) →
  let L := BigEndian_Uint32 header in
  ceiling < L →
  (4 ≤ L < 2 ^ 31 →
   (L - 4 ≤ Z.of_nat (length (inbound conn1)) →
    ∃ payload conn2,
      readFrame conn = FrameRead header payload conn2
      ∧ Z.of_nat (length payload) = L - 4)
   ∧ (Z.of_nat (length (inbound conn1)) < L - 4 →
      readFrame conn
      = FrameError ErrReadBody
          (mkConn [] (outbound conn1) (writable conn1))))
  ∧ (2 ^ 31 ≤ L →
     readFrame conn = FrameError (ErrInvalidLength (L - 2 ^ 32)) conn1).
Proof.
  intros Hheader L _.
  pose proof (BigEndian_Uint32_range header) as Hrange. fold L in Hrange.
  unfold readFrame. rewrite Hheader. fold L. split.
  - intros HL. rewrite int32_nonneg by lia.
    destruct (Z.ltb_spec L 4); [lia|]. split.
    + intros Hlen.
      destruct (io_ReadFull conn1 _) as [[payload|] conn2] eqn:Hp.
      * exists payload, conn2. split; [done|].
        apply io_ReadFull_Some in Hp as [Hp _]. lia.
      * apply io_ReadFull_None in Hp as [Hp _]. lia.
    + intros Hlen. by rewrite io_ReadFull_short by lia.
  - intros HL. rewrite int32_negative by lia.
    destruct (Z.ltb_spec (L - 2 ^ 32) 4); [done|lia].
Qed.

Lemma frame_size_ceiling_witness :
  ∃ payload conn2,
    readFrame (client [x00; x00; x00; x09; x01; x02; x03; x04; x05])
    = FrameRead [x00; x00; x00; x09] payload conn2
    ∧ Z.of_nat (length payload) = 9 - 4.
Proof.
  apply (frame_size_ceiling 8
           (client [x00; x00; x00; x09; x01; x02; x03; x04; x05])
           [x00; x00; x00; x09] (client [x01; x02; x03; x04; x05])).
  - reflexivity.
  - vm_compute. reflexivity.
  - vm_compute. split; [discriminate|reflexivity].
  - vm_compute. discriminate.
Defined.

(** A clear-text client whose frame is [frame]: what the handshake reads. *)
Lemma client_readsStartup tlsServerHandshake frame P :
  readFrame (client frame) = FrameRead (take 4 frame) (drop 4 frame) (client []) →
  isSSLRequest (drop 4 frame) = false →
  (4 ≤ length (drop 4 frame))%nat →
  parseParams (drop 4 (drop 4 frame)) ∅ = inr P →
  readsStartup tlsServerHandshake (client frame) (take 4 frame) (drop 4 frame)
    (client []) P.
Proof. intros. exists (client frame). split_and!; [constructor|done..]. Qed.

(** ** C8: a user of two parts that ends in pool *)

(** C8.  When the user of the startup message splits on the dot into
    exactly two parts and the last is pool, the metadata of the handshake
    have pooled set to true, and the handshake sets neither deployment_id
    nor username: the tenant parser adds the pool flag only, and both keys
    are in the metadata as the client sent them, if at all. *)
Theorem two_part_pool
    (range : nat → gmap string string → list (string * string))
    (tlsServerHandshake : Conn → string * Conn + Conn)
    (fuel : nat) (conn : Conn) (header payload : list byte) (conn' : Conn)
    (P md : gmap string string) (user first : string) :
  readsStartup tlsServerHandshake conn header payload conn' P →
  Handshake range tlsServerHandshake fuel conn = Done md conn' →
  P !! "user" = Some user →
  strings_Split user "." = [first; "pool"] →
  parseUsername P = <["pooled" := "true"]> P
  ∧ md !! "pooled" = Some "true"
  ∧ md !! "deployment_id" = P !! "deployment_id"
  ∧ md !! "username" = P !! "username".
Proof.
  intros Hreads Hrun Huser Hsplit.
  destruct (Handshake_Done_reads _ _ _ _ _ _ _ _ _ _ Hreads Hrun)
    as (_ & _ & Hmd).
  assert (parseUsername P = <["pooled" := "true"]> P) as Hparse.
  { unfold parseUsername. rewrite Huser, Hsplit. reflexivity. }
  split; [done|]. rewrite Hparse in Hmd.
  rewrite !(storeReplay_lookup _ _ _ _ _ _ Hmd) by done.
  by rewrite lookup_insert_eq, !lookup_insert_ne.
Qed.

Lemma two_part_pool_witness :
  metadataOf poolFrame !! "pooled" = Some "true"
  ∧ metadataOf poolFrame !! "deployment_id" = None
  ∧ metadataOf poolFrame !! "username" = None.
Proof.
  pose proof (two_part_pool rangeSorted tlsAccepts 1 (client poolFrame)
                (take 4 poolFrame) (drop 4 poolFrame) (client [])
                {["user" := "something.pool"; "database" := "app"]}
                (metadataOf poolFrame) "something.pool" "something")
    as Hpool.
  destruct Hpool as (_ & Hp & Hd & Hu).
  - apply client_readsStartup; vm_compute; (reflexivity || lia).
  - vm_compute. reflexivity.
  - reflexivity.
  - reflexivity.
  - rewrite Hp, Hd, Hu. split_and!; reflexivity.
Defined.

(** ** C9: the pool flag is always set *)

(** C9.  When the startup message has a user parameter, the metadata of a
    successful handshake hold the key pooled, and its value is true or
    false. *)
Theorem pooled_flag_total
    (range : nat → gmap string string → list (string * string))
    (tlsServerHandshake : Conn → string * Conn + Conn)
    (fuel : nat) (conn : Conn) (header payload : list byte) (conn' : Conn)
    (P md : gmap string string) :
  readsStartup tlsServerHandshake conn header payload conn' P →
  Handshake range tlsServerHandshake fuel conn = Done md conn' →
  is_Some (P !! "user") →
  md !! "pooled" = Some "true" ∨ md !! "pooled" = Some "false".
Proof.
  intros Hreads Hrun [user Huser].
  destruct (Handshake_Done_reads _ _ _ _ _ _ _ _ _ _ Hreads Hrun)
    as (_ & _ & Hmd).
  rewrite (storeReplay_lookup _ _ _ _ _ _ Hmd) by done.
  by eapply parseUsername_pooled.
Qed.

Lemma pooled_flag_total_witness :
  metadataOf aliceFrame !! "pooled" = Some "true"
  ∨ metadataOf aliceFrame !! "pooled" = Some "false".
Proof.
  apply (pooled_flag_total rangeSorted tlsAccepts 1 (client aliceFrame)
           (take 4 aliceFrame) (drop 4 aliceFrame) (client [])
           {["user" := "alice.dep42"; "database" := "app"]}).
  - apply client_readsStartup; vm_compute; (reflexivity || lia).
  - vm_compute. reflexivity.
  - vm_compute. eexists. reflexivity.
Defined.

(** ** C3: replay without rewrite *)




(** ** C10: a startup message without user *)

(** C10, as stated, fails: a startup message without user can carry a
    parameter with the name of the reserved key; the handshake returns it
    in the metadata, and the dispatch engine writes its value to the
    backend before the relay. *)
Lemma no_user_counterexample :
  let P : gmap string string :=
    {["database" := "app"; "_raw_startup_message" := "injected"]} in
  readsStartup tlsAccepts (client smugglingFrame)
    (take 4 smugglingFrame) (drop 4 smugglingFrame) (client []) P
  ∧ P !! "user" = None
  ∧ Handshake rangeSorted tlsAccepts 1 (client smugglingFrame)
    = Done P (client [])
  ∧ P !! "_raw_startup_message" = Some "injected"
  ∧ handleConnection rangeSorted tlsAccepts resolveAny dialAny 1
      (client smugglingFrame)
    = Relaying (client []) (mkConn [] (list_byte_of_string "injected") true).
Proof.
  split_and!; [|vm_compute; reflexivity..].
  apply client_readsStartup; vm_compute; (reflexivity || lia).
Qed.

(** C10, amended.  When the startup message has no user parameter and no
    parameter with the name of the reserved key, the handshake succeeds,
    the metadata are the parameters of the client and hold no reserved
    key, and the dispatch engine goes from the dial to the relay with the
    backend connection as dialed: it writes nothing to the backend. *)
Theorem no_user_no_replay
    (range : nat → gmap string string → list (string * string))
    (tlsServerHandshake : Conn → string * Conn + Conn)
    (Resolve : gmap string string → option string)
    (Dial : string → option Conn)
    (conn : Conn) (header payload : list byte) (conn' : Conn)
    (P : gmap string string) :
  readsStartup tlsServerHandshake conn header payload conn' P →
  P !! "user" = None →
  P !! "_raw_startup_message" = None →
  ∃ fuel0, ∀ fuel, (fuel0 ≤ fuel)%nat →
    Handshake range tlsServerHandshake fuel conn = Done P conn'
    ∧ ∀ backendAddr backendConn,
        Resolve P = Some backendAddr →
        Dial backendAddr = Some backendConn →
        handleConnection range tlsServerHandshake Resolve Dial fuel conn
        = Relaying conn' backendConn.
Proof.
  intros Hreads Huser Hraw.
  assert (storeReplay range header payload (parseUsername P) = Some P) as Hmd.
  { rewrite parseUsername_no_user by done. by apply storeReplay_no_user. }
  destruct (Handshake_readsStartup range tlsServerHandshake _ _ _ _ _ _
              Hreads Hmd) as [fuel0 Hfuel].
  exists fuel0. intros fuel Hle. specialize (Hfuel fuel Hle).
  split; [done|]. intros backendAddr backendConn Hresolve Hdial.
  unfold handleConnection. by rewrite Hfuel, Hresolve, Hdial, Hraw.
Qed.

Lemma no_user_no_replay_witness :
  ∃ fuel0, ∀ fuel, (fuel0 ≤ fuel)%nat →
    Handshake rangeSorted tlsAccepts fuel (client anonymousFrame)
    = Done {["database" := "app"; "application_name" := "psql"]} (client [])
    ∧ ∀ backendAddr backendConn,
        resolveAny {["database" := "app"; "application_name" := "psql"]}
        = Some backendAddr →
        dialAny backendAddr = Some backendConn →
        handleConnection rangeSorted tlsAccepts resolveAny dialAny fuel
          (client anonymousFrame)
        = Relaying (client []) backendConn.
Proof.
  apply (no_user_no_replay rangeSorted tlsAccepts resolveAny dialAny
           (client anonymousFrame)
           (take 4 anonymousFrame) (drop 4 anonymousFrame)).
  - apply client_readsStartup; vm_compute; (reflexivity || lia).
  - vm_compute. reflexivity.
  - vm_compute. reflexivity.
Defined.

(** ** C4: replay with rewrite *)

Section RewriteFacts.

Lemma buildParamsOf_user params newUser :
  buildParamsOf params newUser !! "user" = Some newUser.
Proof. apply lookup_insert_eq. Qed.

Lemma buildParamsOf_held_back params newUser k :
  ¬ passesFilter k → buildParamsOf params newUser !! k = None.
Proof.
  intros Hk. unfold buildParamsOf.
  rewrite lookup_insert_ne by (intros <-; by apply Hk).
  apply map_lookup_filter_None. right. intros v _. done.
Qed.

Lemma buildParamsOf_passes P newUser k :
  k ≠ "user" → passesFilter k →
  buildParamsOf (parseUsername P) newUser !! k = P !! k.
Proof.
  intros Hu Hk. unfold buildParamsOf. rewrite lookup_insert_ne by done.
  rewrite (filter_keys_ext passesFilter (parseUsername P) P)
    by apply parseUsername_passesFilter.
  destruct (P !! k) as [v|] eqn:Hv.
  - by apply map_lookup_filter_Some.
  - apply map_lookup_filter_None. by left.
Qed.

Lemma buildParamsOf_wirePair params newUser :
  map_Forall wirePair params → nulFree newUser →
  map_Forall wirePair (buildParamsOf params newUser).
Proof.
  intros Hparams Hfree. apply map_Forall_insert_2.
  - split_and!; [done| |done]. unfold nulFree. simpl.
    repeat (apply not_elem_of_cons; split; [done|]). apply not_elem_of_nil.
  - intros k v [Hkv _]%map_lookup_filter_Some. by apply Hparams.
Qed.

(** The rebuilt parameters take at most the bytes of the client's
    parameters and of the rewritten user. *)
Lemma buildParamsOf_mapBytes P newUser :
  (mapBytes (buildParamsOf (parseUsername P) newUser)
   ≤ pairBytes ("user", newUser) + mapBytes P)%nat.
Proof.
  unfold buildParamsOf.
  rewrite (filter_keys_ext passesFilter (parseUsername P) P)
    by apply parseUsername_passesFilter.
  etransitivity; [apply mapBytes_insert_le|].
  pose proof (mapBytes_mono _ _
                (map_filter_subseteq (λ kv, passesFilter kv.1) P)).
  lia.
Qed.

(** The user name in the metadata is no longer than the client's
    parameters. *)
Lemma newUser_length P user newUser :
  P !! "user" = Some user →
  parseUsername P !! "username" = Some newUser →
  (String.length newUser + 2 ≤ mapBytes P)%nat.
Proof.
  intros Hu Hn.
  destruct (parseUsername_username P user newUser Hu Hn) as [Hc|Hlen].
  - clear Hn. rename Hc into Hn. apply mapBytes_lookup in Hn. unfold pairBytes in Hn. simpl in Hn. lia.
  - apply mapBytes_lookup in Hu. unfold pairBytes in Hu. simpl in Hu. lia.
Qed.

(** The frame of wire pairs is read back by the loop. *)
Lemma parseParams_encodedFrame total v kvs (m : gmap string string) :
  kvs ≡ₚ map_to_list m →
  map_Forall wirePair m →
  parseParams (drop 8 (encodedFrame total v kvs)) ∅ = inr m.
Proof.
  intros Hperm Hwire.
  assert (drop 8 (encodedFrame total v kvs)
          = concat (encodePair <$> kvs) ++ [x00]) as -> by done.
  rewrite parseParams_encoded; [by rewrite (foldl_insert_all kvs m)|].
  apply Forall_forall. intros [k v'] Hin. simpl.
  apply Hwire. apply elem_of_map_to_list. by rewrite <- Hperm.
Qed.

End RewriteFacts.

(** C4, as stated, fails: the filter holds back deployment_id, pooled and
    username but not the reserved key.  A client whose user is rewritten
    and that sends a parameter with the name of the reserved key gets that
    parameter into the rebuilt frame. *)
Lemma replay_validity_counterexample :
  let md := metadataOf collidingFrame in
  Handshake rangeSorted tlsAccepts 1 (client collidingFrame)
  = Done md (client [])
  ∧ md !! "user" = Some "alice.dep42"
  ∧ md !! "username" = Some "alice"
  ∧ md !! "_raw_startup_message" = Some (string_of_list_byte (replayOf md))
  ∧ parseParams (drop 8 (replayOf md)) ∅
    = inr {["user" := "alice"; "_raw_startup_message" := "junk"]}.
Proof. split_and!; vm_compute; reflexivity. Qed.

(** C4, amended.  When a successful handshake rewrites the user, that is
    the metadata have a user and a username that differs from it, the
    replay bytes are a frame whose first four bytes are the big-endian
    encoding of its length, whose next four bytes are the protocol version
    of the client, and whose parameters are: user, with the username as
    value; none of deployment_id, pooled and username; and every other
    parameter of the client unchanged.  The reserved key is among them only
    if the client sent a parameter of that name. *)
Theorem replay_validity
    (range : nat → gmap string string → list (string * string))
    (range_enumerates : ∀ site m, range site m ≡ₚ map_to_list m)
    (tlsServerHandshake : Conn → string * Conn + Conn)
    (fuel : nat) (conn : Conn) (header payload : list byte) (conn' : Conn)
    (P md : gmap string string) (user newUser : string) :
  readsStartup tlsServerHandshake conn header payload conn' P →
  Handshake range tlsServerHandshake fuel conn = Done md conn' →
  md !! "user" = Some user →
  md !! "username" = Some newUser →
  newUser ≠ user →
  ∃ replay P',
    md !! "_raw_startup_message" = Some (string_of_list_byte replay)
    ∧ BigEndian_Uint32 (take 4 replay) = Z.of_nat (length replay)
    ∧ BigEndian_Uint32 (take 4 (drop 4 replay))
      = BigEndian_Uint32 (take 4 payload)
    ∧ parseParams (drop 8 replay) ∅ = inr P'
    ∧ P' !! "user" = Some newUser
    ∧ P' !! "deployment_id" = None
    ∧ P' !! "pooled" = None
    ∧ P' !! "username" = None
    ∧ (∀ k, k ≠ "user" → passesFilter k → P' !! k = P !! k)
    ∧ P' !! "_raw_startup_message" = P !! "_raw_startup_message".
Proof.
  intros Hreads Hrun Huser Hname Hne.
  destruct (Handshake_Done_reads _ _ _ _ _ _ _ _ _ _ Hreads Hrun)
    as (_ & Hh & Hmd).
  rewrite (storeReplay_lookup _ _ _ _ _ "user" Hmd) in Huser by done.
  rewrite (storeReplay_lookup _ _ _ _ _ "username" Hmd) in Hname by done.
  rewrite (storeReplay_rebuilt range range_enumerates header payload _
             user newUser Huser Hname Hne) in Hmd.
  injection Hmd as <-.
  set (build := buildParamsOf (parseUsername P) newUser).
  destruct Hreads as (c0 & _ & Hframe & _ & Hlen & HP).
  apply readFrame_FrameRead in Hframe as (_ & HL & Hpayload & _).
  (* the parameters of the client, and the rebuilt ones, fit the wire *)
  assert (map_Forall wirePair (parseUsername P)) as Hwire.
  { apply parseUsername_wirePair.
    apply (parseParams_wirePair (drop 4 payload) ∅); [|done].
    apply map_Forall_empty. }
  assert (map_Forall wirePair build) as Hbuild.
  { apply buildParamsOf_wirePair; [done|]. by apply (Hwire _ _ Hname). }
  (* the length fits the header *)
  assert (Z.of_nat (encodedLength build) < 2 ^ 32) as Hfits.
  { pose proof (buildParamsOf_mapBytes P newUser) as Hb. fold build in Hb.
    pose proof (parseParams_mapBytes _ _ _ HP) as Hsize.
    rewrite mapBytes_empty, length_drop in Hsize.
    rewrite parseUsername_passesFilter in Huser by done.
    pose proof (newUser_length P user newUser Huser Hname).
    unfold encodedLength. unfold pairBytes in Hb. simpl in Hb. lia. }
  eexists _, build. split_and!.
  - apply lookup_insert_eq.
  - rewrite length_encodedFrame, (mapBytes_enumeration _ build) by done.
    unfold encodedFrame. rewrite BigEndian_Uint32_take4.
    rewrite BigEndian_Uint32_app by done.
    rewrite BigEndian_Uint32_PutUint32. unfold uint32.
    rewrite Z.mod_mod by lia. rewrite Z.mod_small; [done|].
    unfold encodedLength in *. lia.
  - unfold encodedFrame.
    assert (∀ a b l, drop 4 (BigEndian_PutUint32 a ++ BigEndian_PutUint32 b
                               ++ l) = BigEndian_PutUint32 b ++ l) as ->
      by done.
    rewrite !BigEndian_Uint32_take4, BigEndian_Uint32_app by done.
    rewrite BigEndian_Uint32_PutUint32.
    apply Z.mod_small, BigEndian_Uint32_range.
  - by apply parseParams_encodedFrame.
  - apply buildParamsOf_user.
  - apply buildParamsOf_held_back. intros (? & _); done.
  - apply buildParamsOf_held_back. intros (_ & ? & _); done.
  - apply buildParamsOf_held_back. intros (_ & _ & ?); done.
  - intros k Hk Hpass. by apply buildParamsOf_passes.
  - by apply buildParamsOf_passes.
Qed.

Lemma replay_validity_witness :
  ∃ replay P',
    metadataOf aliceFrame !! "_raw_startup_message"
    = Some (string_of_list_byte replay)
    ∧ BigEndian_Uint32 (take 4 replay) = Z.of_nat (length replay)
    ∧ BigEndian_Uint32 (take 4 (drop 4 replay))
      = BigEndian_Uint32 (take 4 (drop 4 aliceFrame))
    ∧ parseParams (drop 8 replay) ∅ = inr P'
    ∧ P' !! "user" = Some "alice"
    ∧ P' !! "deployment_id" = None
    ∧ P' !! "pooled" = None
    ∧ P' !! "username" = None
    ∧ (∀ k, k ≠ "user" → passesFilter k →
            P' !! k
            = ({["user" := "alice.dep42"; "database" := "app"]}
                 : gmap string string) !! k)
    ∧ P' !! "_raw_startup_message"
      = ({["user" := "alice.dep42"; "database" := "app"]}
           : gmap string string) !! "_raw_startup_message".
Proof.
  apply (replay_validity rangeSorted rangeSorted_enumerates tlsAccepts 1
           (client aliceFrame) (take 4 aliceFrame) (drop 4 aliceFrame)
           (client []) {["user" := "alice.dep42"; "database" := "app"]}
           (metadataOf aliceFrame) "alice.dep42" "alice").
  - apply client_readsStartup; vm_compute; (reflexivity || lia).
  - vm_compute. reflexivity.
  - vm_compute. reflexivity.
  - vm_compute. reflexivity.
  - discriminate.
Defined.

(** ** C1: the codec round trip *)

Section CodecFacts.

Context (range : nat → gmap string string → list (string * string)).
Hypothesis range_enumerates : ∀ site m, range site m ≡ₚ map_to_list m.

Lemma decodeStartup_Some frame v P :
  decodeStartup frame = Some (v, P) →
  ∃ header payload conn',
    readFrame (client frame) = FrameRead header payload conn'
    ∧ isSSLRequest payload = false
    ∧ (4 ≤ length payload)%nat
    ∧ parseParams (drop 4 payload) ∅ = inr P
    ∧ v = BigEndian_Uint32 (take 4 payload).
Proof.
  unfold decodeStartup.
  destruct (readFrame (client frame)) as [header payload conn'|] eqn:Hframe;
    [|done].
  destruct (isSSLRequest payload) eqn:Hssl; [done|].
  case_decide; [done|].
  destruct (parseParams _ _) as [err|params] eqn:HP; [done|].
  intros [= <- <-]. exists header, payload, conn'.
  split_and!; (done || lia).
Qed.

(** What [decodeStartup] decodes is what the handshake works on. *)
Lemma decodeStartup_readsStartup tlsServerHandshake frame v P :
  decodeStartup frame = Some (v, P) →
  ∃ header payload conn',
    readsStartup tlsServerHandshake (client frame) header payload conn' P.
Proof.
  intros (header & payload & conn' & ? & ? & ? & ? & _)%decodeStartup_Some.
  exists header, payload, conn', (client frame).
  split_and!; [constructor|done..].
Qed.

(** The frame that carries the decoded parameters is at most one byte
    longer than the frame they were decoded from. *)
Lemma decodeStartup_encodedLength frame v P :
  decodeStartup frame = Some (v, P) →
  Z.of_nat (encodedLength P) ≤ BigEndian_Uint32 (take 4 frame) + 1.
Proof.
  intros (header & payload & conn' & Hframe & _ & H4 & HP & _)%decodeStartup_Some.
  apply readFrame_FrameRead in Hframe as (Hh & _ & Hlen & Hin & _).
  simpl in Hin. subst frame.
  rewrite BigEndian_Uint32_take4, BigEndian_Uint32_app by done.
  apply parseParams_mapBytes in HP.
  rewrite mapBytes_empty, length_drop in HP. unfold encodedLength. lia.
Qed.

Lemma isSSLRequest_version v rest :
  isSSLRequest (BigEndian_PutUint32 v ++ rest)
  = (int32 (v mod 2 ^ 32) =? sslRequestCode).
Proof.
  unfold isSSLRequest. case_decide as Hlen; [|simpl in Hlen; lia].
  assert (take 4 (BigEndian_PutUint32 v ++ rest) = BigEndian_PutUint32 v)
    as -> by done.
  by rewrite BigEndian_Uint32_PutUint32.
Qed.

Lemma isSSLRequest_false_version payload :
  (4 ≤ length payload)%nat →
  isSSLRequest payload = false →
  (int32 (BigEndian_Uint32 (take 4 payload)) =? sslRequestCode) = false.
Proof.
  intros Hlen. unfold isSSLRequest. by case_decide.
Qed.

(** Decoding the frame that [rebuildStartupMessage] builds. *)
Lemma decodeStartup_encodedFrame v P :
  0 ≤ v < 2 ^ 32 →
  (int32 v =? sslRequestCode) = false →
  map_Forall wirePair P →
  Z.of_nat (encodedLength P) < 2 ^ 31 →
  decodeStartup (encodedFrame (encodedLength P) v (range 2 P)) = Some (v, P).
Proof.
  intros Hv Hssl Hwire Hfits. unfold decodeStartup, client, encodedFrame.
  set (payload := BigEndian_PutUint32 v ++ concat (encodePair <$> range 2 P)
                    ++ [x00]).
  assert (length payload = (4 + mapBytes P + 1)%nat) as Hlen.
  { unfold payload. rewrite !length_app, length_concat_encodePair,
      (mapBytes_enumeration _ P) by done. simpl. lia. }
  rewrite <- (right_id_L [] (++) payload).
  assert (BigEndian_Uint32
            (BigEndian_PutUint32 (uint32 (Z.of_nat (encodedLength P))))
          = Z.of_nat (encodedLength P)) as Hheader.
  { rewrite BigEndian_Uint32_PutUint32. unfold uint32.
    rewrite Z.mod_mod by lia. apply Z.mod_small. lia. }
  rewrite readFrame_app;
    [|done|rewrite Hheader, Hlen; unfold encodedLength; lia|by rewrite Hheader].
  unfold payload at 1. rewrite isSSLRequest_version.
  rewrite (Z.mod_small v) by done. rewrite Hssl.
  case_decide; [lia|].
  assert (drop 4 payload = concat (encodePair <$> range 2 P) ++ [x00]) as ->
    by done.
  rewrite parseParams_encoded.
  - rewrite (foldl_insert_all _ P) by done.
    assert (take 4 payload = BigEndian_PutUint32 v) as -> by done.
    rewrite BigEndian_Uint32_PutUint32, Z.mod_small by done. done.
  - apply Forall_forall. intros [k v'] Hin. simpl.
    apply Hwire. apply elem_of_map_to_list. by rewrite <- range_enumerates.
Qed.

End CodecFacts.

(** C1, amended.  For a startup frame that decodes to the version v and
    the parameters P: every key of P is not empty, no key and no value
    holds a NUL byte, and, provided the frame that carries P is shorter
    than 2^31 bytes (as it is when the decoded frame declares at most
    2^31 - 2 bytes), [rebuildStartupMessage] on v and P yields a frame that
    decodes to v and P again, whatever the order of the map. *)
Theorem codec_round_trip
    (range : nat → gmap string string → list (string * string))
    (range_enumerates : ∀ site m, range site m ≡ₚ map_to_list m)
    (frame : list byte) (v : Z) (P : gmap string string) :
  decodeStartup frame = Some (v, P) →
  Z.of_nat (encodedLength P) < 2 ^ 31 →
  map_Forall (λ k value, k ≠ "" ∧ nulFree k ∧ nulFree value) P
  ∧ ∃ frame',
      rebuildStartupMessage range v P = Some frame'
      ∧ decodeStartup frame' = Some (v, P).
Proof.
  intros Hdecode Hfits.
  pose proof Hdecode
    as (header & payload & conn' & _ & Hssl & Hlen & HP & ->)%decodeStartup_Some.
  assert (map_Forall wirePair P) as Hwire.
  { apply (parseParams_wirePair (drop 4 payload) ∅); [|done].
    apply map_Forall_empty. }
  split; [done|].
  exists (encodedFrame (encodedLength P) (BigEndian_Uint32 (take 4 payload))
            (range 2%nat P)).
  split; [by apply rebuildStartupMessage_encodedFrame|].
  apply decodeStartup_encodedFrame; try done.
  - apply BigEndian_Uint32_range.
  - by apply isSSLRequest_false_version.
Qed.

Lemma codec_round_trip_witness :
  ∃ frame',
    rebuildStartupMessage rangeSorted 196608
      {["user" := "alice.dep42"; "database" := "app"]} = Some frame'
    ∧ decodeStartup frame'
      = Some (196608, {["user" := "alice.dep42"; "database" := "app"]}).
Proof.
  apply (codec_round_trip rangeSorted rangeSorted_enumerates aliceFrame).
  - vm_compute. reflexivity.
  - vm_compute. reflexivity.
Defined.

Section LongFrame.

Variable n : nat.

Lemma longValue_wirePair : wirePair "k" (longValue n).
Proof.
  split_and!; [done| |].
  - unfold nulFree. simpl. apply not_elem_of_cons. split; [done|].
    apply not_elem_of_nil.
  - apply nulFree_string_of_list_byte.
    intros [[=] _]%elem_of_replicate.
Qed.

Lemma length_longValue : String.length (longValue n) = n.
Proof.
  unfold longValue.
  by rewrite <- length_list_byte_of_string,
    list_byte_of_string_of_list_byte, length_replicate.
Qed.

Lemma decodeStartup_longFrame :
  Z.of_nat n + 11 < 2 ^ 31 →
  decodeStartup (longFrame n) = Some (196608, {["k" := longValue n]}).
Proof.
  intros Hn. unfold decodeStartup, client, longFrame.
  set (payload := BigEndian_PutUint32 196608 ++ encodePair ("k", longValue n)).
  assert (length payload = (n + 7)%nat) as Hlen.
  { unfold payload. rewrite length_app, length_encodePair.
    unfold pairBytes. simpl. rewrite length_longValue. lia. }
  rewrite <- (right_id_L [] (++) payload).
  assert (BigEndian_Uint32 (BigEndian_PutUint32 (Z.of_nat n + 11))
          = Z.of_nat n + 11) as Hheader.
  { rewrite BigEndian_Uint32_PutUint32. apply Z.mod_small. lia. }
  rewrite readFrame_app; [|done|rewrite Hheader, Hlen; lia|by rewrite Hheader].
  unfold payload at 1. rewrite isSSLRequest_version.
  assert ((int32 (196608 mod 2 ^ 32) =? sslRequestCode) = false) as ->
    by reflexivity.
  case_decide; [lia|].
  assert (drop 4 payload = encodePair ("k", longValue n) ++ []) as ->
    by (by rewrite (right_id_L [] (++))).
  rewrite parseParams_step, loopBody_pair by apply longValue_wirePair.
  rewrite parseParams_step.
  assert (loopBody [] (<["k" := longValue n]> ∅) = Break) as -> by done.
  assert (take 4 payload = BigEndian_PutUint32 196608) as -> by done.
  rewrite BigEndian_Uint32_PutUint32. reflexivity.
Qed.

Lemma encodedLength_longValue :
  encodedLength {["k" := longValue n]} = (n + 12)%nat.
Proof.
  unfold encodedLength, mapBytes. rewrite map_to_list_singleton.
  unfold pairBytes. simpl. rewrite length_longValue. lia.
Qed.

Lemma decodeStartup_rebuilt_longFrame :
  Z.of_nat n + 12 = 2 ^ 31 →
  ∃ frame',
    rebuildStartupMessage rangeSorted 196608 {["k" := longValue n]}
    = Some frame'
    ∧ BigEndian_Uint32 (take 4 frame') = 2 ^ 31
    ∧ decodeStartup frame' = None.
Proof.
  intros Hn. eexists. split.
  { apply rebuildStartupMessage_encodedFrame, rangeSorted_enumerates. }
  rewrite encodedLength_longValue.
  assert (BigEndian_Uint32
            (BigEndian_PutUint32 (uint32 (Z.of_nat (n + 12)))) = 2 ^ 31)
    as Hheader.
  { rewrite BigEndian_Uint32_PutUint32. unfold uint32.
    rewrite Z.mod_mod by lia.
    replace (Z.of_nat (n + 12)) with (2 ^ 31) by lia. reflexivity. }
  unfold encodedFrame. split.
  { by rewrite BigEndian_Uint32_take4, BigEndian_Uint32_app. }
  unfold decodeStartup, client.
  rewrite readFrame_invalid; [done|done|].
  rewrite Hheader. reflexivity.
Qed.

End LongFrame.

(** C1, as stated, fails at the upper end of the lengths the decoder
    accepts.  The frame of 2^31 - 1 bytes with the single parameter k,
    whose payload ends without the final NUL, decodes; the frame rebuilt
    from its parameters has the final NUL and is 2^31 bytes long, and the
    decoder refuses it, since that length is negative as a signed 32-bit
    integer. *)
Lemma codec_round_trip_counterexample :
  let n := Z.to_nat 2147483636 in
  decodeStartup (longFrame n) = Some (196608, {["k" := longValue n]})
  ∧ ∃ frame',
      rebuildStartupMessage rangeSorted 196608 {["k" := longValue n]}
      = Some frame'
      ∧ BigEndian_Uint32 (take 4 frame') = 2 ^ 31
      ∧ decodeStartup frame' = None.
Proof.
  intros n.
  assert (Z.of_nat n = 2147483636) as Hn
    by (unfold n; apply Z2Nat.id; discriminate).
  split.
  - apply decodeStartup_longFrame. rewrite Hn. reflexivity.
  - apply decodeStartup_rebuilt_longFrame. rewrite Hn. reflexivity.
Qed.


(** * Further properties of the code *)

(** ** More on [strings.Split] and [strings.Join] *)

Section SplitJoinFacts.

Lemma string_app_String x (a b : string) :
  String x a +:+ b = String x (a +:+ b).
Proof. done. Qed.

Lemma string_app_assoc (a b c : string) : (a +:+ b) +:+ c = a +:+ b +:+ c.
Proof.
  induction a as [|x a IH]; [done|]. by rewrite !string_app_String, IH.
Qed.

Lemma string_app_empty_r (a : string) : a +:+ "" = a.
Proof.
  induction a as [|x a IH]; [done|]. by rewrite string_app_String, IH.
Qed.

Lemma occurrences_app c a b :
  occurrences c (a +:+ b) = (occurrences c a + occurrences c b)%nat.
Proof.
  induction a as [|x a IH]; [done|].
  rewrite string_app_String. simpl. rewrite IH. lia.
Qed.

(** One part more than separators. *)
Lemma length_strings_Split s sep :
  length (strings_Split s sep) = S (occurrences sep s).
Proof.
  induction s as [|c s IH]; simpl; [done|].
  destruct (Ascii.eqb c sep); simpl; [by rewrite IH|].
  destruct (strings_Split s sep) as [|p ps]; simpl in *; lia.
Qed.

Lemma strings_Split_no_sep s sep :
  occurrences sep s = 0%nat → strings_Split s sep = [s].
Proof.
  induction s as [|c s IH]; simpl; [done|].
  destruct (Ascii.eqb c sep); [done|]. intros Hs. by rewrite IH.
Qed.

(** Splitting splits at every separator. *)
Lemma strings_Split_app a b sep :
  strings_Split (a +:+ String sep b) sep
  = strings_Split a sep ++ strings_Split b sep.
Proof.
  induction a as [|c a IH].
  - simpl. by rewrite Ascii.eqb_refl.
  - rewrite string_app_String. simpl.
    rewrite IH. destruct (Ascii.eqb c sep); [done|].
    destruct (strings_Split_cons a sep) as (p & ps & ->). done.
Qed.

Lemma strings_Split_parts s sep :
  Forall (λ p, occurrences sep p = 0%nat) (strings_Split s sep).
Proof.
  induction s as [|c s IH]; simpl; [by apply Forall_singleton|].
  destruct (Ascii.eqb c sep) eqn:Hc; [by apply Forall_cons|].
  destruct (strings_Split s sep) as [|p ps].
  - apply Forall_singleton. simpl. by rewrite Hc.
  - apply Forall_cons in IH as [Hp Hps]. apply Forall_cons.
    split; [|done]. simpl. by rewrite Hc.
Qed.

(** Splitting what was joined gives the parts back. *)
Lemma strings_Split_Join parts sep :
  parts ≠ [] →
  Forall (λ p, occurrences sep p = 0%nat) parts →
  strings_Split (strings_Join parts (String sep "")) sep = parts.
Proof.
  intros Hne Hparts.
  induction Hparts as [|h parts Hh Hparts IH]; [done|].
  destruct parts as [|p ps]; [by apply strings_Split_no_sep|].
  rewrite strings_Join_cons_cons, string_app_String.
  change ("" +:+ strings_Join (p :: ps) (String sep ""))
    with (strings_Join (p :: ps) (String sep "")).
  rewrite strings_Split_app, IH by done. by rewrite strings_Split_no_sep.
Qed.

(** The parts up to one more part. *)
Lemma strings_Join_take_S parts sep k :
  (1 ≤ k < length parts)%nat →
  strings_Join (take (S k) parts) sep
  = strings_Join (take k parts) sep +:+ sep +:+ index parts k.
Proof.
  revert k. induction parts as [|h t IH]; intros k Hk; simpl in Hk; [lia|].
  destruct k as [|k]; [lia|].
  destruct t as [|p ps]; simpl in Hk; [lia|].
  destruct k as [|k].
  - reflexivity.
  - change (take (S (S (S k))) (h :: p :: ps))
      with (h :: take (S (S k)) (p :: ps)).
    change (take (S (S k)) (h :: p :: ps)) with (h :: take (S k) (p :: ps)).
    change (index (h :: p :: ps) (S (S k))) with (index (p :: ps) (S k)).
    change (take (S (S k)) (p :: ps)) with (p :: take (S k) ps) at 1.
    rewrite strings_Join_cons_cons.
    change (p :: take (S k) ps) with (take (S (S k)) (p :: ps)).
    rewrite IH by (simpl; lia).
    change (take (S k) (p :: ps)) with (p :: take k ps).
    rewrite strings_Join_cons_cons, !string_app_assoc. done.
Qed.

Lemma strings_Join_snoc parts sep last :
  parts ≠ [] →
  strings_Join (parts ++ [last]) sep
  = strings_Join parts sep +:+ sep +:+ last.
Proof.
  intros Hne. induction parts as [|h t IH]; [done|].
  destruct t as [|p ps]; [done|].
  change ((h :: p :: ps) ++ [last]) with (h :: p :: (ps ++ [last])).
  rewrite !strings_Join_cons_cons.
  change (p :: ps ++ [last]) with ((p :: ps) ++ [last]).
  rewrite IH by done. by rewrite !string_app_assoc.
Qed.

End SplitJoinFacts.

(** ** The tenant parser splits at the last dot *)

Section TenantSplitFacts.

Lemma index_app_length (l r : list string) (d : string) :
  index (l ++ d :: r) (length l) = d.
Proof. unfold index. induction l as [|h l IH]; simpl; done. Qed.

Lemma strings_Split_last (prefix d : string) :
  occurrences "." d = 0%nat →
  strings_Split (prefix +:+ "." +:+ d) "." = strings_Split prefix "." ++ [d].
Proof.
  intros Hd. change ("." +:+ d) with (String "." d).
  by rewrite strings_Split_app, (strings_Split_no_sep d).
Qed.

Lemma length_strings_Split_pos (s : string) :
  (1 ≤ length (strings_Split s "."))%nat.
Proof. rewrite length_strings_Split. lia. Qed.

End TenantSplitFacts.

(** X1.  A user of the form prefix.d, where d has no dot and is not pool,
    gives pooled false, deployment_id d and username prefix, whatever the
    client sent under these three keys: the parser splits at the last
    dot. *)
Theorem tenant_last_dot (P : gmap string string) (user prefix d : string) :
  P !! "user" = Some user →
  user = prefix +:+ "." +:+ d →
  occurrences "." d = 0%nat →
  d ≠ "pool" →
  parseUsername P
  = <["username" := prefix]>
      (<["deployment_id" := d]> (<["pooled" := "false"]> P)).
Proof.
  intros Huser -> Hd Hpool. unfold parseUsername. rewrite Huser.
  rewrite strings_Split_last by done.
  pose proof (length_strings_Split_pos prefix) as Hlen.
  rewrite length_app. simpl length.
  replace (length (strings_Split prefix ".") + 1 - 1)%nat
    with (length (strings_Split prefix ".")) by lia.
  case_decide; [|lia].
  rewrite index_app_length, take_app_length.
  destruct (String.eqb_spec d "pool"); [done|].
  by rewrite (strings_Join_Split prefix ".").
Qed.

Lemma tenant_last_dot_witness :
  parseUsername {["user" := "a.b.c.dep42"; "deployment_id" := "spoofed"]}
  = <["username" := "a.b.c"]>
      (<["deployment_id" := "dep42"]>
         (<["pooled" := "false"]>
            {["user" := "a.b.c.dep42"; "deployment_id" := "spoofed"]})).
Proof.
  apply (tenant_last_dot _ "a.b.c.dep42" "a.b.c" "dep42").
  - reflexivity.
  - reflexivity.
  - reflexivity.
  - discriminate.
Defined.

(** X2.  A user of the form prefix.d.pool, where d has no dot, gives pooled
    true, deployment_id d and username prefix. *)
Theorem tenant_pool_suffix (P : gmap string string) (user prefix d : string) :
  P !! "user" = Some user →
  user = prefix +:+ "." +:+ d +:+ ".pool" →
  occurrences "." d = 0%nat →
  parseUsername P
  = <["username" := prefix]>
      (<["deployment_id" := d]> (<["pooled" := "true"]> P)).
Proof.
  intros Huser -> Hd. unfold parseUsername. rewrite Huser.
  assert (strings_Split (prefix +:+ "." +:+ d +:+ ".pool") "."
          = strings_Split prefix "." ++ [d; "pool"]) as ->.
  { change ("." +:+ d +:+ ".pool") with (String "." (d +:+ String "." "pool")).
    rewrite !strings_Split_app, (strings_Split_no_sep d) by done. done. }
  pose proof (length_strings_Split_pos prefix) as Hlen.
  rewrite length_app. simpl length.
  replace (length (strings_Split prefix ".") + 2 - 1)%nat
    with (length (strings_Split prefix ".") + 1)%nat by lia.
  replace (length (strings_Split prefix ".") + 2 - 2)%nat
    with (length (strings_Split prefix ".")) by lia.
  case_decide; [|lia].
  assert (index (strings_Split prefix "." ++ [d; "pool"])
            (length (strings_Split prefix ".") + 1) = "pool") as ->.
  { rewrite (cons_middle d), (assoc_L (++)).
    replace (length (strings_Split prefix ".") + 1)%nat
      with (length (strings_Split prefix "." ++ [d]))
      by (rewrite length_app; simpl; lia).
    apply index_app_length. }
  change (String.eqb "pool" "pool") with true. cbv iota.
  case_decide; [|lia].
  rewrite index_app_length, take_app_length.
  by rewrite (strings_Join_Split prefix ".").
Qed.

Lemma tenant_pool_suffix_witness :
  parseUsername {["user" := "a.b.dep42.pool"]}
  = <["username" := "a.b"]>
      (<["deployment_id" := "dep42"]>
         (<["pooled" := "true"]> {["user" := "a.b.dep42.pool"]})).
Proof.
  apply (tenant_pool_suffix _ "a.b.dep42.pool" "a.b" "dep42").
  - reflexivity.
  - reflexivity.
  - reflexivity.
Defined.

(** X3.  A user without a dot only gets pooled false: no deployment id and
    no username are derived, and what the client sent under these keys
    stays. *)
Theorem tenant_no_dot (P : gmap string string) (user : string) :
  P !! "user" = Some user →
  occurrences "." user = 0%nat →
  parseUsername P = <["pooled" := "false"]> P.
Proof.
  intros Huser Hdot. unfold parseUsername.
  rewrite Huser, strings_Split_no_sep by done. reflexivity.
Qed.

Lemma tenant_no_dot_witness :
  parseUsername {["user" := "solo"; "deployment_id" := "chosen"]}
  = <["pooled" := "false"]> {["user" := "solo"; "deployment_id" := "chosen"]}.
Proof.
  apply (tenant_no_dot _ "solo"); reflexivity.
Defined.

(** X4.  The pool flag is true exactly when the user ends in .pool. *)
Theorem pooled_iff_pool_suffix (P : gmap string string) (user : string) :
  P !! "user" = Some user →
  parseUsername P !! "pooled" = Some "true"
  ↔ ∃ prefix, user = prefix +:+ ".pool".
Proof.
  intros Huser. split.
  - unfold parseUsername. rewrite Huser.
    set (parts := strings_Split user ".").
    case_decide as Hn;
      [|rewrite lookup_insert_eq; discriminate].
    destruct (String.eqb_spec (index parts (length parts - 1)) "pool")
      as [Hlast|_];
      [|rewrite !lookup_insert_ne, lookup_insert_eq by done; discriminate].
    intros _. exists (strings_Join (take (length parts - 1) parts) ".").
    rewrite <- (strings_Join_Split user ".") at 1. fold parts.
    rewrite <- (take_ge parts (length parts)) at 1 by done.
    replace (length parts) with (S (length parts - 1)) at 1 by lia.
    rewrite strings_Join_take_S by lia. by rewrite Hlast.
  - intros [prefix ->].
    unfold parseUsername. rewrite Huser.
    change (prefix +:+ ".pool") with (prefix +:+ "." +:+ "pool").
    rewrite strings_Split_last by done.
    pose proof (length_strings_Split_pos prefix) as Hlen.
    rewrite length_app. simpl length.
    replace (length (strings_Split prefix ".") + 1 - 1)%nat
      with (length (strings_Split prefix ".")) by lia.
    case_decide; [|lia].
    rewrite index_app_length.
    change (String.eqb "pool" "pool") with true. cbv iota.
    case_decide; [rewrite !lookup_insert_ne by done|]; apply lookup_insert_eq.
Qed.

Lemma pooled_iff_pool_suffix_witness :
  parseUsername {["user" := "alice.dep42.pool"]} !! "pooled" = Some "true".
Proof.
  apply (pooled_iff_pool_suffix _ "alice.dep42.pool"); [reflexivity|].
  exists "alice.dep42". reflexivity.
Defined.

(** ** The parameter loop on any payload *)

Section LoopFacts.

(** The loop goes through a prefix of wire pairs and continues with what
    follows. *)
Lemma parseParams_prefix kvs rest params :
  Forall (λ kv, wirePair kv.1 kv.2) kvs →
  parseParams (concat (encodePair <$> kvs) ++ rest) params
  = parseParams rest (foldl (λ m kv, <[kv.1 := kv.2]> m) params kvs).
Proof.
  intros Hkvs. revert params.
  induction Hkvs as [|[k v] kvs Hkv _ IH]; intros params; [done|].
  cbn [fmap list_fmap concat foldl].
  rewrite parseParams_step, <- (assoc_L (++)), loopBody_pair by done.
  apply IH.
Qed.

Lemma foldl_insert_list_to_map (kvs : list (string * string)) :
  foldl (λ (m : gmap string string) kv, <[kv.1 := kv.2]> m) ∅ kvs
  = list_to_map (reverse kvs).
Proof.
  induction kvs as [|[k v] kvs IH] using rev_ind; [done|].
  by rewrite foldl_app, reverse_app, IH.
Qed.

Lemma loopBody_EOF tail params :
  x00 ∉ tail → loopBody tail params = Break.
Proof.
  intros Htail. unfold loopBody. by rewrite Buffer_ReadString_EOF.
Qed.

Lemma loopBody_no_value k tail params :
  k ≠ "" → nulFree k → x00 ∉ tail →
  loopBody (list_byte_of_string k ++ x00 :: tail) params
  = Return ErrMalformedStartup.
Proof.
  intros Hk Hfree Htail. unfold loopBody.
  rewrite (Buffer_ReadString_found _ _ _ Hfree), trimLast_bytes_snoc.
  rewrite string_of_list_byte_of_string.
  destruct (String.eqb_spec k ""); [done|].
  by rewrite Buffer_ReadString_EOF.
Qed.

Lemma loopBody_Return buf params err :
  loopBody buf params = Return err →
  err = ErrMalformedStartup
  ∧ ∃ k tail, k ≠ "" ∧ nulFree k ∧ (x00 ∉ tail)
              ∧ buf = list_byte_of_string k ++ x00 :: tail.
Proof.
  unfold loopBody.
  destruct (Buffer_ReadString buf x00) as [[key [[]|]] buf1] eqn:Hk; [done|].
  apply Buffer_ReadString_None in Hk as (lk & Hlk & -> & ->).
  rewrite trimLast_bytes_snoc.
  destruct (String.eqb_spec (string_of_list_byte lk) "") as [|Hne]; [done|].
  unfold Buffer_ReadString.
  destruct (bytes_IndexByte buf1 x00) as [i|] eqn:Hi; [done|].
  apply bytes_IndexByte_None in Hi. intros [= <-]. split; [done|].
  exists (string_of_list_byte lk), buf1.
  rewrite list_byte_of_string_of_list_byte.
  split_and!; [done|by apply nulFree_string_of_list_byte|done|done].
Qed.

End LoopFacts.

(** X5.  The loop reads the pairs in the order of the payload up to the
    first empty key: a later pair with the same key replaces the earlier
    one, and whatever follows the empty key is ignored. *)
Theorem parameters_last_wins (kvs : list (string * string))
    (rest : list byte) :
  Forall (λ kv, wirePair kv.1 kv.2) kvs →
  parseParams (concat (encodePair <$> kvs) ++ x00 :: rest) ∅
  = inr (list_to_map (reverse kvs)).
Proof.
  intros Hkvs. rewrite parseParams_prefix by done.
  by rewrite parseParams_step, loopBody_terminator, foldl_insert_list_to_map.
Qed.

Lemma parameters_last_wins_witness :
  parseParams
    (concat (encodePair <$> [("user", "alice"); ("user", "bob")])
       ++ x00 :: list_byte_of_string "ignored") ∅
  = inr (list_to_map (reverse [("user", "alice"); ("user", "bob")])).
Proof.
  apply parameters_last_wins.
  repeat apply Forall_cons_2; [| |apply Forall_nil_2];
    (split_and!; [done|..]; unfold nulFree; simpl;
     repeat (apply not_elem_of_cons; split; [done|]); apply not_elem_of_nil).
Defined.

(** X6.  A payload that ends without the empty key is accepted: the loop
    stops at the end of the input, and bytes after the last pair that hold
    no NUL, the start of a key, are dropped without an error. *)
Theorem parameters_end_of_input (kvs : list (string * string))
    (tail : list byte) :
  Forall (λ kv, wirePair kv.1 kv.2) kvs →
  x00 ∉ tail →
  parseParams (concat (encodePair <$> kvs) ++ tail) ∅
  = inr (list_to_map (reverse kvs)).
Proof.
  intros Hkvs Htail. rewrite parseParams_prefix by done.
  by rewrite parseParams_step, loopBody_EOF, foldl_insert_list_to_map.
Qed.

Lemma parameters_end_of_input_witness :
  parseParams
    (concat (encodePair <$> [("user", "alice")])
       ++ list_byte_of_string "datab") ∅
  = inr (list_to_map (reverse [("user", "alice")])).
Proof.
  apply parameters_end_of_input.
  - repeat apply Forall_cons_2; [|apply Forall_nil_2].
    split_and!; [done|..]; unfold nulFree; simpl;
      repeat (apply not_elem_of_cons; split; [done|]); apply not_elem_of_nil.
  - simpl. repeat (apply not_elem_of_cons; split; [done|]).
    apply not_elem_of_nil.
Defined.

(** X7.  The loop fails exactly when, after some pairs, a key that is not
    empty is followed by a value with no NUL up to the end of the payload;
    the error is then the malformed-startup one, and there is no other
    error. *)
Theorem parameters_malformed_iff (buf : list byte) :
  ((∃ err, parseParams buf ∅ = inl err)
   ↔ ∃ kvs k tail,
       Forall (λ kv, wirePair kv.1 kv.2) kvs
       ∧ k ≠ "" ∧ nulFree k ∧ (x00 ∉ tail)
       ∧ buf = concat (encodePair <$> kvs)
                 ++ list_byte_of_string k ++ x00 :: tail)
  ∧ ∀ err, parseParams buf ∅ = inl err → err = ErrMalformedStartup.
Proof.
  assert (∀ err, parseParams buf ∅ = inl err →
            ∃ kvs k tail,
              Forall (λ kv, wirePair kv.1 kv.2) kvs
              ∧ k ≠ "" ∧ nulFree k ∧ (x00 ∉ tail)
              ∧ buf = concat (encodePair <$> kvs)
                        ++ list_byte_of_string k ++ x00 :: tail
              ∧ parseParams buf ∅ = inl ErrMalformedStartup) as Hform.
  { apply (parseParams_loop_ind
             (λ buf params r, ∀ err, r = inl err →
                ∃ kvs k tail,
                  Forall (λ kv, wirePair kv.1 kv.2) kvs
                  ∧ k ≠ "" ∧ nulFree k ∧ (x00 ∉ tail)
                  ∧ buf = concat (encodePair <$> kvs)
                            ++ list_byte_of_string k ++ x00 :: tail
                  ∧ parseParams buf params = inl ErrMalformedStartup)).
    - done.
    - intros b p e (-> & k & tail & Hk & Hfree & Htail & ->)%loopBody_Return
        err _.
      exists [], k, tail. split_and!; try done.
      by rewrite parseParams_step, loopBody_no_value.
    - intros b p b' p' r Hstep IH err Herr.
      destruct (IH err Herr) as (kvs & k & tail & Hkvs & Hk & Hfree & Htail
                                 & -> & Hparse).
      pose proof Hstep as (k0 & v0 & Hkv & -> & ->)%loopBody_Next.
      exists ((k0, v0) :: kvs), k, tail. split_and!; try done.
      + by apply Forall_cons.
      + cbn [fmap list_fmap concat]. by rewrite <- (assoc_L (++)).
      + by rewrite parseParams_step, Hstep. }
  split; [split|].
  - intros [err Herr].
    destruct (Hform err Herr) as (kvs & k & tail & ? & ? & ? & ? & ? & _).
    by exists kvs, k, tail.
  - intros (kvs & k & tail & Hkvs & Hk & Hfree & Htail & ->).
    exists ErrMalformedStartup.
    by rewrite parseParams_prefix, parseParams_step, loopBody_no_value.
  - intros err Herr.
    destruct (Hform err Herr) as (_ & _ & _ & _ & _ & _ & _ & _ & Hparse).
    congruence.
Qed.

Lemma parameters_malformed_iff_witness :
  ∃ err, parseParams (list_byte_of_string "user" ++ x00
                        :: list_byte_of_string "alice") ∅ = inl err.
Proof.
  apply (parameters_malformed_iff
           (list_byte_of_string "user" ++ x00 :: list_byte_of_string "alice")).
  exists [], "user", (list_byte_of_string "alice").
  split_and!; try done.
  - unfold nulFree; simpl.
    repeat (apply not_elem_of_cons; split; [done|]); apply not_elem_of_nil.
  - simpl. repeat (apply not_elem_of_cons; split; [done|]).
    apply not_elem_of_nil.
Defined.

(** ** Frames and metadata of the handshake *)

(** X8.  A frame that declares fewer than 8 bytes has no room for the
    protocol version: once it is read, the handshake fails with the
    payload-too-short error. *)
Theorem short_frame_refused
    (range : nat → gmap string string → list (string * string))
    (tlsServerHandshake : Conn → string * Conn + Conn)
    (fuel : nat) (conn : Conn) (header payload : list byte) (conn' : Conn) :
  readFrame conn = FrameRead header payload conn' →
  BigEndian_Uint32 header < 8 →
  Handshake range tlsServerHandshake (S fuel) conn
  = Failed ErrPayloadTooShort conn'.
Proof.
  intros Hframe HL. simpl. rewrite Hframe.
  apply readFrame_FrameRead in Hframe as (_ & _ & Hlen & _).
  unfold isSSLRequest, handleStartup.
  case_decide; [lia|]. case_decide; [done|lia].
Qed.

Lemma short_frame_refused_witness :
  Handshake rangeSorted tlsAccepts 1 (client [x00; x00; x00; x06; x00; x03])
  = Failed ErrPayloadTooShort (client []).
Proof.
  apply (short_frame_refused rangeSorted tlsAccepts 0
           (client [x00; x00; x00; x06; x00; x03])
           [x00; x00; x00; x06] [x00; x03]).
  - reflexivity.
  - reflexivity.
Defined.

(** X9.  A clear-text handshake that succeeds has read the declared number
    of bytes and no more, and has written nothing to the client: the
    bytes the client sent after the startup frame are still to be read on
    the connection it returns. *)
Theorem cleartext_reads_one_frame
    (range : nat → gmap string string → list (string * string))
    (tlsServerHandshake : Conn → string * Conn + Conn)
    (fuel : nat) (conn : Conn) (header payload : list byte) (c1 : Conn)
    (md : gmap string string) (conn' : Conn) :
  readFrame conn = FrameRead header payload c1 →
  isSSLRequest payload = false →
  Handshake range tlsServerHandshake fuel conn = Done md conn' →
  inbound conn = header ++ payload ++ inbound conn'
  ∧ Z.of_nat (length (header ++ payload)) = BigEndian_Uint32 header
  ∧ outbound conn' = outbound conn
  ∧ writable conn' = writable conn.
Proof.
  intros Hframe Hssl Hrun. destruct fuel as [|fuel]; [done|].
  simpl in Hrun. rewrite Hframe, Hssl in Hrun.
  apply handleStartup_Done in Hrun as (-> & _).
  apply readFrame_FrameRead in Hframe as (Hh & _ & Hlen & Hin & Hout & Hw).
  split_and!; try done. rewrite length_app. lia.
Qed.

Lemma cleartext_reads_one_frame_witness :
  inbound (client (soloFrame ++ list_byte_of_string "next"))
  = take 4 soloFrame ++ drop 4 soloFrame
      ++ inbound (client (list_byte_of_string "next")).
Proof.
  apply (cleartext_reads_one_frame rangeSorted tlsAccepts 1
           (client (soloFrame ++ list_byte_of_string "next"))
           (take 4 soloFrame) (drop 4 soloFrame)
           (client (list_byte_of_string "next"))
           (metadataOf soloFrame)).
  - vm_compute. reflexivity.
  - vm_compute. reflexivity.
  - vm_compute. reflexivity.
Defined.

(** X10.  The metadata of a successful handshake hold every parameter of
    the client, under its key and with its value, except under the keys
    deployment_id, pooled, username and the reserved key; in particular
    user and database are as received. *)
Theorem metadata_pass_through
    (range : nat → gmap string string → list (string * string))
    (tlsServerHandshake : Conn → string * Conn + Conn)
    (fuel : nat) (conn : Conn) (header payload : list byte) (conn' : Conn)
    (P md : gmap string string) :
  readsStartup tlsServerHandshake conn header payload conn' P →
  Handshake range tlsServerHandshake fuel conn = Done md conn' →
  (∀ k, k ≠ "deployment_id" → k ≠ "pooled" → k ≠ "username" →
        k ≠ "_raw_startup_message" → md !! k = P !! k)
  ∧ md !! "user" = P !! "user"
  ∧ md !! "database" = P !! "database".
Proof.
  intros Hreads Hrun.
  destruct (Handshake_Done_reads _ _ _ _ _ _ _ _ _ _ Hreads Hrun)
    as (_ & _ & Hmd).
  assert (∀ k, k ≠ "deployment_id" → k ≠ "pooled" → k ≠ "username" →
               k ≠ "_raw_startup_message" → md !! k = P !! k) as Hpass.
  { intros k ? ? ? ?.
    by apply (Handshake_metadata_lookup range header payload). }
  split_and!; [done|by apply Hpass..].
Qed.

Lemma metadata_pass_through_witness :
  metadataOf aliceFrame !! "user" = Some "alice.dep42"
  ∧ metadataOf aliceFrame !! "database" = Some "app".
Proof.
  destruct (metadata_pass_through rangeSorted tlsAccepts 1 (client aliceFrame)
              (take 4 aliceFrame) (drop 4 aliceFrame) (client [])
              {["user" := "alice.dep42"; "database" := "app"]}
              (metadataOf aliceFrame)) as (_ & Hu & Hd).
  - apply client_readsStartup; vm_compute; (reflexivity || lia).
  - vm_compute. reflexivity.
  - rewrite Hu, Hd. split; reflexivity.
Defined.

(** X11.  Whatever the client sends and however the maps are visited, the
    handshake makes no write out of the bounds of a slice: it never
    panics. *)
Theorem handshake_never_panics
    (range : nat → gmap string string → list (string * string))
    (range_enumerates : ∀ site m, range site m ≡ₚ map_to_list m)
    (tlsServerHandshake : Conn → string * Conn + Conn)
    (fuel : nat) (conn : Conn) :
  Handshake range tlsServerHandshake fuel conn ≠ Panic.
Proof. by apply Handshake_no_Panic. Qed.

Lemma handshake_never_panics_witness :
  Handshake rangeSorted tlsAccepts 1 (client aliceFrame) ≠ Panic.
Proof.
  apply (handshake_never_panics rangeSorted rangeSorted_enumerates).
Defined.

(** X12.  [rebuildStartupMessage] fills its buffer exactly, in whatever
    order the two loops visit the map: the frame is 4 + 4 + the bytes of
    the pairs + 1 bytes long, starts with that length (modulo 2^32) and
    the protocol version, and, when the pairs fit the wire format, the
    parameter loop reads the map back from its ninth byte on. *)
Theorem rebuild_layout
    (range : nat → gmap string string → list (string * string))
    (range_enumerates : ∀ site m, range site m ≡ₚ map_to_list m)
    (protocolVersion : Z) (params : gmap string string) :
  ∃ frame,
    rebuildStartupMessage range protocolVersion params = Some frame
    ∧ length frame = (4 + 4 + mapBytes params + 1)%nat
    ∧ BigEndian_Uint32 (take 4 frame) = Z.of_nat (length frame) mod 2 ^ 32
    ∧ take 4 (drop 4 frame) = BigEndian_PutUint32 protocolVersion
    ∧ last frame = Some x00
    ∧ (map_Forall wirePair params →
       parseParams (drop 8 frame) ∅ = inr params).
Proof.
  exists (encodedFrame (encodedLength params) protocolVersion
            (range 2%nat params)).
  split; [by apply rebuildStartupMessage_encodedFrame|].
  assert (length (encodedFrame (encodedLength params) protocolVersion
                    (range 2%nat params)) = encodedLength params) as Hlen.
  { by rewrite length_encodedFrame, (mapBytes_enumeration _ params). }
  split_and!.
  - by rewrite Hlen.
  - rewrite Hlen. unfold encodedFrame.
    rewrite BigEndian_Uint32_take4, BigEndian_Uint32_app by done.
    rewrite BigEndian_Uint32_PutUint32. unfold uint32.
    by rewrite Z.mod_mod by lia.
  - done.
  - unfold encodedFrame. by rewrite !(assoc_L (++)), last_snoc.
  - intros Hwire. by apply parseParams_encodedFrame.
Qed.

Lemma rebuild_layout_witness :
  ∃ frame,
    rebuildStartupMessage rangeSorted 196608 {["user" := "alice"]}
    = Some frame
    ∧ length frame = (4 + 4 + mapBytes {["user" := "alice"]} + 1)%nat
    ∧ BigEndian_Uint32 (take 4 frame) = Z.of_nat (length frame) mod 2 ^ 32
    ∧ take 4 (drop 4 frame) = BigEndian_PutUint32 196608
    ∧ last frame = Some x00
    ∧ (map_Forall wirePair ({["user" := "alice"]} : gmap string string) →
       parseParams (drop 8 frame) ∅ = inr {["user" := "alice"]}).
Proof.
  apply (rebuild_layout rangeSorted rangeSorted_enumerates).
Defined.


(** ** What the backend receives *)

Section ForwardFacts.

Context (range : nat → gmap string string → list (string * string)).
Hypothesis range_enumerates : ∀ site m, range site m ≡ₚ map_to_list m.

(** The rebuilt frame of a handshake is shorter than 2^32 bytes: its
    length fits the length field. *)
Lemma rebuilt_length_fits (payload : list byte) (P : gmap string string)
    (user newUser : string) :
  parseParams (drop 4 payload) ∅ = inr P →
  Z.of_nat (length payload) < 2 ^ 31 - 4 →
  P !! "user" = Some user →
  parseUsername P !! "username" = Some newUser →
  Z.of_nat (encodedLength (buildParamsOf (parseUsername P) newUser)) < 2 ^ 32.
Proof.
  intros HP Hlen Huser Hname.
  pose proof (buildParamsOf_mapBytes P newUser) as Hb.
  pose proof (parseParams_mapBytes _ _ _ HP) as Hsize.
  rewrite mapBytes_empty, length_drop in Hsize.
  pose proof (newUser_length P user newUser Huser Hname).
  unfold encodedLength. unfold pairBytes in Hb. simpl in Hb. lia.
Qed.

(** The rebuilt parameters, in terms of the parameters of the client. *)
Lemma buildParamsOf_parseUsername P newUser :
  buildParamsOf (parseUsername P) newUser = buildParamsOf P newUser.
Proof.
  unfold buildParamsOf.
  by rewrite (filter_keys_ext passesFilter (parseUsername P) P)
    by apply parseUsername_passesFilter.
Qed.

Lemma conn_Write_writable conn b :
  writable conn = true →
  conn_Write conn b = Some (mkConn (inbound conn) (outbound conn ++ b) true).
Proof. intros Hw. unfold conn_Write. by rewrite Hw. Qed.

End ForwardFacts.

(** X13.  When the handshake does not rewrite the user and resolver and
    dialer succeed, the dispatch engine writes to the backend, before the
    relay, exactly the bytes of the client's startup frame, header and
    payload, whose first four bytes declare their length. *)
Theorem backend_receives_client_frame
    (range : nat → gmap string string → list (string * string))
    (tlsServerHandshake : Conn → string * Conn + Conn)
    (Resolve : gmap string string → option string)
    (Dial : string → option Conn)
    (fuel : nat) (conn : Conn) (header payload : list byte) (conn' : Conn)
    (P md : gmap string string) (user backendAddr : string)
    (backendConn : Conn) :
  readsStartup tlsServerHandshake conn header payload conn' P →
  Handshake range tlsServerHandshake fuel conn = Done md conn' →
  md !! "user" = Some user →
  md !! "username" = None ∨ md !! "username" = Some user →
  Resolve md = Some backendAddr →
  Dial backendAddr = Some backendConn →
  writable backendConn = true →
  handleConnection range tlsServerHandshake Resolve Dial fuel conn
  = Relaying conn'
      (mkConn (inbound backendConn)
         (outbound backendConn ++ header ++ payload) true)
  ∧ BigEndian_Uint32 (take 4 (header ++ payload))
    = Z.of_nat (length (header ++ payload)).
Proof.
  intros Hreads Hrun Huser Hname Hresolve Hdial Hw.
  destruct (Handshake_Done_reads _ _ _ _ _ _ _ _ _ _ Hreads Hrun)
    as (_ & Hh & Hmd).
  rewrite (storeReplay_lookup _ _ _ _ _ "user" Hmd) in Huser by done.
  rewrite (storeReplay_lookup _ _ _ _ _ "username" Hmd) in Hname by done.
  rewrite (storeReplay_verbatim range header payload _ user Hh Huser Hname)
    in Hmd.
  injection Hmd as <-. split.
  - unfold handleConnection. rewrite Hrun, Hresolve, Hdial, lookup_insert_eq.
    rewrite list_byte_of_string_of_list_byte.
    by rewrite conn_Write_writable.
  - destruct Hreads as (c0 & _ & Hframe & _).
    apply readFrame_FrameRead in Hframe as (_ & _ & Hlen & _).
    rewrite BigEndian_Uint32_take4, BigEndian_Uint32_app by done.
    rewrite length_app. lia.
Qed.

Lemma backend_receives_client_frame_witness :
  handleConnection rangeSorted tlsAccepts resolveAny dialAny 1
    (client soloFrame)
  = Relaying (client [])
      (mkConn [] ([] ++ take 4 soloFrame ++ drop 4 soloFrame) true)
  ∧ BigEndian_Uint32 (take 4 (take 4 soloFrame ++ drop 4 soloFrame))
    = Z.of_nat (length (take 4 soloFrame ++ drop 4 soloFrame)).
Proof.
  apply (backend_receives_client_frame rangeSorted tlsAccepts resolveAny
           dialAny 1 (client soloFrame) (take 4 soloFrame) (drop 4 soloFrame)
           (client []) {["user" := "solo"; "database" := "app"]}
           (metadataOf soloFrame) "solo" "10.0.0.1:5432" (mkConn [] [] true)).
  - apply client_readsStartup; vm_compute; (reflexivity || lia).
  - vm_compute. reflexivity.
  - vm_compute. reflexivity.
  - left. vm_compute. reflexivity.
  - reflexivity.
  - reflexivity.
  - reflexivity.
Defined.

(** X14.  When the handshake rewrites the user and resolver and dialer
    succeed, the dispatch engine writes to the backend, before the relay,
    one frame whose first four bytes declare its length and whose
    parameters are those of the client without deployment_id, pooled and
    username, and with user set to the username of the metadata. *)
Theorem backend_receives_rebuilt_frame
    (range : nat → gmap string string → list (string * string))
    (range_enumerates : ∀ site m, range site m ≡ₚ map_to_list m)
    (tlsServerHandshake : Conn → string * Conn + Conn)
    (Resolve : gmap string string → option string)
    (Dial : string → option Conn)
    (fuel : nat) (conn : Conn) (header payload : list byte) (conn' : Conn)
    (P md : gmap string string) (user newUser backendAddr : string)
    (backendConn : Conn) :
  readsStartup tlsServerHandshake conn header payload conn' P →
  Handshake range tlsServerHandshake fuel conn = Done md conn' →
  md !! "user" = Some user →
  md !! "username" = Some newUser →
  newUser ≠ user →
  Resolve md = Some backendAddr →
  Dial backendAddr = Some backendConn →
  writable backendConn = true →
  ∃ replay,
    handleConnection range tlsServerHandshake Resolve Dial fuel conn
    = Relaying conn'
        (mkConn (inbound backendConn) (outbound backendConn ++ replay) true)
    ∧ BigEndian_Uint32 (take 4 replay) = Z.of_nat (length replay)
    ∧ parseParams (drop 8 replay) ∅
      = inr (<["user" := newUser]> (filter (λ kv, passesFilter kv.1) P)).
Proof.
  intros Hreads Hrun Huser Hname Hne Hresolve Hdial Hw.
  destruct (Handshake_Done_reads _ _ _ _ _ _ _ _ _ _ Hreads Hrun)
    as (_ & Hh & Hmd).
  rewrite (storeReplay_lookup _ _ _ _ _ "user" Hmd) in Huser by done.
  rewrite (storeReplay_lookup _ _ _ _ _ "username" Hmd) in Hname by done.
  rewrite (storeReplay_rebuilt range range_enumerates header payload _
             user newUser Huser Hname Hne) in Hmd.
  injection Hmd as <-.
  destruct Hreads as (c0 & _ & Hframe & _ & Hlen & HP).
  apply readFrame_FrameRead in Hframe as (_ & HL & Hpayload & _).
  assert (map_Forall wirePair (parseUsername P)) as Hwire.
  { apply parseUsername_wirePair.
    apply (parseParams_wirePair (drop 4 payload) ∅); [|done].
    apply map_Forall_empty. }
  pose proof (Hwire _ _ Hname) as (_ & _ & Hfree).
  rewrite parseUsername_passesFilter in Huser by done.
  pose proof (rebuilt_length_fits payload P user newUser HP ltac:(lia)
                Huser Hname) as Hfits.
  set (build := buildParamsOf (parseUsername P) newUser) in *.
  eexists. split_and!.
  - unfold handleConnection. rewrite Hrun, Hresolve, Hdial, lookup_insert_eq.
    rewrite list_byte_of_string_of_list_byte.
    by rewrite conn_Write_writable.
  - rewrite length_encodedFrame, (mapBytes_enumeration _ build) by done.
    unfold encodedFrame. rewrite BigEndian_Uint32_take4.
    rewrite BigEndian_Uint32_app by done.
    rewrite BigEndian_Uint32_PutUint32. unfold uint32.
    rewrite Z.mod_mod by lia. rewrite Z.mod_small; [done|].
    unfold encodedLength in *. lia.
  - rewrite (parseParams_encodedFrame _ _ _ build);
      [|done|by apply buildParamsOf_wirePair].
    unfold build. by rewrite buildParamsOf_parseUsername.
Qed.

Lemma backend_receives_rebuilt_frame_witness :
  ∃ replay,
    handleConnection rangeSorted tlsAccepts resolveAny dialAny 1
      (client aliceFrame)
    = Relaying (client []) (mkConn [] ([] ++ replay) true)
    ∧ BigEndian_Uint32 (take 4 replay) = Z.of_nat (length replay)
    ∧ parseParams (drop 8 replay) ∅
      = inr (<["user" := "alice"]>
               (filter (λ kv, passesFilter kv.1)
                  ({["user" := "alice.dep42"; "database" := "app"]}
                     : gmap string string))).
Proof.
  apply (backend_receives_rebuilt_frame rangeSorted rangeSorted_enumerates
           tlsAccepts resolveAny dialAny 1 (client aliceFrame)
           (take 4 aliceFrame) (drop 4 aliceFrame) (client [])
           {["user" := "alice.dep42"; "database" := "app"]}
           (metadataOf aliceFrame) "alice.dep42" "alice" "10.0.0.1:5432"
           (mkConn [] [] true)).
  - apply client_readsStartup; vm_compute; (reflexivity || lia).
  - vm_compute. reflexivity.
  - vm_compute. reflexivity.
  - vm_compute. reflexivity.
  - discriminate.
  - reflexivity.
  - reflexivity.
  - reflexivity.
Defined.

(** ** The error response *)

Section ErrorResponseFacts.

Lemma length_errorFields errResp :
  length (errorFields errResp)
  = (7 + String.length (Severity errResp) + String.length (Code errResp)
     + String.length (Message errResp))%nat.
Proof.
  unfold errorFields. simpl.
  rewrite !length_app. simpl. rewrite !length_app. simpl.
  rewrite !length_app. simpl. rewrite !length_list_byte_of_string. lia.
Qed.

(** The three slice writes fill the buffer: no write is out of range. *)
Lemma sendErrorResponse_write conn errResp :
  sendErrorResponse conn errResp
  = conn_Write conn (errorResponseBytes errResp).
Proof.
  unfold sendErrorResponse. cbv zeta.
  rewrite <- !(assoc_L (++)).
  change ([] ++ ["S"%byte] ++ list_byte_of_string (Severity errResp)
          ++ [x00] ++ ["C"%byte] ++ list_byte_of_string (Code errResp)
          ++ [x00] ++ ["M"%byte] ++ list_byte_of_string (Message errResp)
          ++ [x00] ++ [x00])
    with (errorFields errResp).
  unfold errorResponseBytes.
  set (fields := errorFields errResp).
  set (total := uint32 (Z.of_nat (4 + length fields))).
  change (replicate (1 + 4 + length fields) x00)
    with ([] ++ replicate (1 + 4 + length fields) x00).
  rewrite slice_set_zeros by (simpl; lia). rewrite bind_Some.
  rewrite (slice_PutUint32_zeros _ _ total) by (simpl; lia).
  rewrite bind_Some.
  rewrite slice_copy_zeros; cycle 1.
  { rewrite length_app, length_BigEndian_PutUint32. simpl. lia. }
  { lia. }
  rewrite bind_Some.
  replace (1 + 4 + length fields - 1 - 4 - length fields)%nat with 0%nat
    by lia.
  simpl. by rewrite app_nil_r.
Qed.

End ErrorResponseFacts.

(** X15.  The error response.  [sendErrorResponse] writes one message
    (no slice write of its own is out of range): the byte E, four bytes,
    then S and the severity, C and the code, M and the message, each
    closed by a NUL, and a final NUL.  The message has 12 bytes more than
    the three strings, and the four bytes hold, modulo 2^32, the length of
    the message without the byte E. *)
Theorem error_response_layout (conn : Conn) (errResp : ErrorResponse) :
  sendErrorResponse conn errResp
  = conn_Write conn (errorResponseBytes errResp)
  ∧ errorResponseBytes errResp
    = "E"%byte :: take 4 (drop 1 (errorResponseBytes errResp))
      ++ "S"%byte :: list_byte_of_string (Severity errResp)
      ++ x00 :: "C"%byte :: list_byte_of_string (Code errResp)
      ++ x00 :: "M"%byte :: list_byte_of_string (Message errResp)
      ++ [x00; x00]
  ∧ length (errorResponseBytes errResp)
    = (12 + String.length (Severity errResp) + String.length (Code errResp)
       + String.length (Message errResp))%nat
  ∧ BigEndian_Uint32 (take 4 (drop 1 (errorResponseBytes errResp)))
    = (Z.of_nat (length (errorResponseBytes errResp)) - 1) mod 2 ^ 32.
Proof.
  assert (∀ v l, take 4 (drop 1 ("E"%byte :: BigEndian_PutUint32 v ++ l))
                 = BigEndian_PutUint32 v) as Htake by done.
  assert (length (errorResponseBytes errResp)
          = (5 + length (errorFields errResp))%nat) as Hlen.
  { unfold errorResponseBytes. rewrite length_cons, length_app.
    rewrite length_BigEndian_PutUint32. lia. }
  split_and!.
  - apply sendErrorResponse_write.
  - unfold errorResponseBytes. by rewrite Htake.
  - rewrite Hlen, length_errorFields. lia.
  - rewrite Hlen. unfold errorResponseBytes. rewrite Htake.
    rewrite BigEndian_Uint32_PutUint32. unfold uint32.
    rewrite Z.mod_mod by lia. f_equal. lia.
Qed.

(** X16.  A refused TLS upgrade.  When a client on a writable connection
    sends an SSLRequest and the TLS handshake fails with [err], the
    handshake fails with the TLS error, whether or not the error response
    can be sent, and reads nothing after the TLS library.  When the
    connection, as the TLS library leaves it, still takes a write, the
    client is sent, after the byte S and whatever the library has written,
    the error response FATAL 08006 with the message
    "TLS handshake failed: " followed by [err].  The handler of handler.go
    fails on the connection as the TLS library leaves it. *)
Theorem tls_failure_reported
    (range : nat → gmap string string → list (string * string))
    (tlsServerHandshake : Conn → string * Conn + Conn)
    (fuel : nat) (rest out : list byte) (err : string) (c3 : Conn) :
  tlsServerHandshake (mkConn rest (out ++ ["S"%byte]) true) = inl (err, c3) →
  (∃ c,
     Handshake range tlsServerHandshake (S fuel)
       (mkConn (clientSSLRequest ++ rest) out true)
     = Failed ErrTLSHandshake c
     ∧ inbound c = inbound c3
     ∧ (writable c3 = true →
        c = mkConn (inbound c3)
              (outbound c3
               ++ errorResponseBytes
                    (mkErrorResponse "FATAL" "08006"
                       ("TLS handshake failed: " +:+ err)))
              true))
  ∧ handler_go.Handshake tlsServerHandshake (S fuel)
      (mkConn (clientSSLRequest ++ rest) out true)
    = Failed ErrTLSHandshake c3.
Proof.
  intros Htls.
  assert (readFrame (mkConn (clientSSLRequest ++ rest) out true)
          = FrameRead (BigEndian_PutUint32 8)
              (BigEndian_PutUint32 sslRequestCode) (mkConn rest out true))
    as Hframe.
  { unfold clientSSLRequest. rewrite <- (assoc_L (++)).
    by apply readFrame_app. }
  assert (isSSLRequest (BigEndian_PutUint32 sslRequestCode) = true) as Hssl
    by done.
  split.
  - cbn [Handshake]. rewrite Hframe, Hssl.
    unfold conn_Write at 1. cbn [writable inbound outbound]. rewrite Htls.
    rewrite sendErrorResponse_write. unfold conn_Write.
    destruct (writable c3) eqn:Hw; cbn [default]; eexists; by split_and!.
  - cbn [handler_go.Handshake]. rewrite Hframe, Hssl.
    unfold conn_Write. cbn [writable inbound outbound]. by rewrite Htls.
Qed.

Lemma tls_failure_reported_witness :
  (∃ c,
     Handshake rangeSorted tlsRefuses 1
       (mkConn (clientSSLRequest ++ aliceFrame) [] true)
     = Failed ErrTLSHandshake c
     ∧ inbound c
       = inbound (mkConn [] ["S"%byte; x15; x03; x03; x00; x02; x02; x0a]
                    true)
     ∧ (writable (mkConn [] ["S"%byte; x15; x03; x03; x00; x02; x02; x0a]
                    true) = true →
        c = mkConn
              (inbound (mkConn [] ["S"%byte; x15; x03; x03; x00; x02; x02;
                                   x0a] true))
              (outbound (mkConn [] ["S"%byte; x15; x03; x03; x00; x02; x02;
                                    x0a] true)
               ++ errorResponseBytes
                    (mkErrorResponse "FATAL" "08006"
                       ("TLS handshake failed: " +:+ "bad record")))
              true))
  ∧ handler_go.Handshake tlsRefuses 1
      (mkConn (clientSSLRequest ++ aliceFrame) [] true)
    = Failed ErrTLSHandshake
        (mkConn [] ["S"%byte; x15; x03; x03; x00; x02; x02; x0a] true).
Proof.
  apply (tls_failure_reported rangeSorted tlsRefuses 0 aliceFrame []
           "bad record"
           (mkConn [] ["S"%byte; x15; x03; x03; x00; x02; x02; x0a] true)).
  reflexivity.
Defined.

(** ** The handlers compared *)

Section VersionFacts.

Lemma parseParams_error buf params err :
  parseParams buf params = inl err → err = ErrMalformedStartup.
Proof.
  revert err.
  apply (parseParams_loop_ind
           (λ buf params r, ∀ err, r = inl err → err = ErrMalformedStartup)).
  - done.
  - intros b p e [-> _]%loopBody_Return err [= <-]. done.
  - intros b p b' p' r _ IH err Herr. by apply IH.
Qed.

Lemma readFrame_error conn err conn' :
  readFrame conn = FrameError err conn' → err ≠ ErrTLSHandshake.
Proof.
  unfold readFrame.
  destruct (io_ReadFull conn 4) as [[h|] c1]; [|by intros [= <- _]].
  destruct (_ <? 4); [by intros [= <- _]|].
  destruct (io_ReadFull c1 _) as [[p|] c2]; [done|by intros [= <- _]].
Qed.

End VersionFacts.

(** X17.  The handler of handler.go is the first handler followed by the
    tenant parser: on every connection it fails as the first handler
    fails, and it succeeds on the same connection with the tenant parser
    applied to the first handler's parameters. *)
Theorem handler_go_adds_tenant_parser
    (tlsServerHandshake : Conn → string * Conn + Conn)
    (fuel : nat) (conn : Conn) :
  handler_go.Handshake tlsServerHandshake fuel conn
  = match part_000.Handshake tlsServerHandshake fuel conn with
    | Done params conn' => Done (parseUsername params) conn'
    | result => result
    end.
Proof.
  revert conn. induction fuel as [|fuel IH]; intros conn; [done|].
  cbn [handler_go.Handshake part_000.Handshake].
  destruct (readFrame conn) as [header payload c1|err c1]; [|done].
  destruct (isSSLRequest payload).
  - destruct (conn_Write c1 _) as [c2|]; [|done].
    destruct (tlsServerHandshake c2) as [[err c3]|tlsConn]; [done|apply IH].
  - case_decide; [done|].
    by destruct (parseParams (drop 4 payload) ∅).
Qed.

(** X18.  The handler with the replay step against the handler of
    handler.go, on every connection and for every order in which the maps
    are visited: both succeed on the same connection, with the same
    metadata under every key but the reserved one, or both fail with the
    same error on the same connection; when the TLS handshake fails both
    fail with the TLS error after the same reads, and the later handler
    has, in addition, written the error response FATAL 08006 when the
    connection still took the write.  The later handler does not
    panic. *)
Theorem handler_adds_replay_only
    (range : nat → gmap string string → list (string * string))
    (range_enumerates : ∀ site m, range site m ≡ₚ map_to_list m)
    (tlsServerHandshake : Conn → string * Conn + Conn)
    (fuel : nat) (conn : Conn) :
  sameOutcome (handler_go.Handshake tlsServerHandshake fuel conn)
    (Handshake range tlsServerHandshake fuel conn).
Proof.
  revert conn. induction fuel as [|fuel IH]; intros conn; [constructor|].
  cbn [handler_go.Handshake Handshake].
  destruct (readFrame conn) as [header payload c1|err c1] eqn:Hframe;
    [|by constructor; eapply readFrame_error].
  apply readFrame_FrameRead in Hframe as (Hh & _).
  destruct (isSSLRequest payload).
  - destruct (conn_Write c1 ["S"%byte]) as [c2|] eqn:Hc2; [|by constructor].
    unfold conn_Write in Hc2.
    destruct (writable c1) eqn:Hw; [|done]. injection Hc2 as <-.
    destruct (tlsServerHandshake _) as [[err c3]|tlsConn]; [|apply IH].
    rewrite sendErrorResponse_write. unfold conn_Write.
    destruct (writable c3) eqn:Hw3; cbn [default].
    + apply (same_TLS _ _ err); [done|by eexists|done].
    + apply (same_TLS _ _ err); [done|done|]. by rewrite Hw3.
  - unfold handleStartup. case_decide; [by constructor|].
    destruct (parseParams (drop 4 payload) ∅) as [err|params] eqn:HP.
    + apply parseParams_error in HP as ->. by constructor.
    + destruct (storeReplay_is_Some range range_enumerates header payload
                  (parseUsername params) Hh) as [md Hmd].
      rewrite Hmd. constructor. intros k Hk.
      by apply (storeReplay_lookup range header payload).
Qed.

Lemma handler_adds_replay_only_witness :
  sameOutcome (handler_go.Handshake tlsAccepts 2
                 (client (clientSSLRequest ++ aliceFrame)))
    (Handshake rangeSorted tlsAccepts 2
       (client (clientSSLRequest ++ aliceFrame))).
Proof.
  apply (handler_adds_replay_only rangeSorted rangeSorted_enumerates
           tlsAccepts 2 (client (clientSSLRequest ++ aliceFrame))).
Defined.


(** ** The memory resolver *)

Section ResolverFacts.

Context (trim : string → string).

Lemma wellFormedEntry_length entry :
  wellFormedEntry trim entry
  ↔ length (strings_Split (trim entry) "=") = 2%nat.
Proof. unfold wellFormedEntry. rewrite length_strings_Split. lia. Qed.

Lemma addPairs_inr pairs (b : gmap string string) :
  Forall (wellFormedEntry trim) pairs →
  memory.addPairs trim pairs b
  = inr (foldl (λ (m : gmap string string) kv, <[kv.1 := kv.2]> m) b
           (entryOf trim <$> pairs)).
Proof.
  intros Hpairs. revert b.
  induction Hpairs as [|entry pairs Hwf _ IH]; intros b; [done|].
  cbn [memory.addPairs]. apply wellFormedEntry_length in Hwf.
  case_decide; [done|]. by rewrite IH.
Qed.

Lemma addPairs_inl good entry bad (b : gmap string string) :
  Forall (wellFormedEntry trim) good →
  ¬ wellFormedEntry trim entry →
  memory.addPairs trim (good ++ entry :: bad) b = inl entry.
Proof.
  intros Hgood Hbad. revert b.
  induction Hgood as [|e good Hwf _ IH]; intros b.
  - cbn [app memory.addPairs]. rewrite wellFormedEntry_length in Hbad.
    by case_decide.
  - cbn [app memory.addPairs]. apply wellFormedEntry_length in Hwf.
    case_decide; [done|]. apply IH.
Qed.

Lemma addPairs_inr_inv pairs (b m : gmap string string) :
  memory.addPairs trim pairs b = inr m →
  Forall (wellFormedEntry trim) pairs.
Proof.
  revert b. induction pairs as [|entry pairs IH]; intros b; [done|].
  cbn [memory.addPairs]. case_decide as Hlen; [done|].
  intros Hm. apply Forall_cons. split; [|by eapply IH].
  apply wellFormedEntry_length. lia.
Qed.

Lemma addPairs_inl_inv pairs (b : gmap string string) entry :
  memory.addPairs trim pairs b = inl entry →
  ∃ good bad,
    pairs = good ++ entry :: bad
    ∧ Forall (wellFormedEntry trim) good ∧ ¬ wellFormedEntry trim entry.
Proof.
  revert b. induction pairs as [|e pairs IH]; intros b; [done|].
  cbn [memory.addPairs]. case_decide as Hlen.
  - intros [= <-]. exists [], pairs. split_and!; [done|done|].
    by rewrite wellFormedEntry_length.
  - intros (good & bad & -> & Hgood & Hbad)%IH.
    exists (e :: good), bad. split_and!; [done| |done].
    apply Forall_cons. split; [|done]. apply wellFormedEntry_length. lia.
Qed.

(** An entry of the format gives back its name and its address. *)
Lemma entryOf_plain kv :
  plainEntry trim kv →
  wellFormedEntry trim (kv.1 +:+ "=" +:+ kv.2)
  ∧ entryOf trim (kv.1 +:+ "=" +:+ kv.2) = kv
  ∧ occurrences "," (kv.1 +:+ "=" +:+ kv.2) = 0%nat.
Proof.
  destruct kv as [k v]. unfold plainEntry, wellFormedEntry, entryOf.
  cbn [fst snd]. intros (Hk1 & Hk2 & Hv1 & Hv2 & Hk & Hv & ->).
  change ("=" +:+ v) with (String "=" v).
  rewrite !occurrences_app. cbn [occurrences].
  rewrite strings_Split_app, !strings_Split_no_sep by done.
  cbn [app index nth]. rewrite Hk, Hv, Hk1, Hk2, Hv1, Hv2. done.
Qed.

End ResolverFacts.

(** X19.  [NewResolver] accepts the empty string and the strings whose
    entries between commas have each, once trimmed, exactly one [=]; it
    refuses every other string, and the error names the first entry that
    has not, as it stands between its commas. *)
Theorem resolver_accepts_iff (trim : string → string) (mappingStr : string) :
  ((∃ r, memory.NewResolver trim mappingStr = inr r)
   ↔ mappingStr = ""
     ∨ Forall (wellFormedEntry trim) (strings_Split mappingStr ","))
  ∧ ∀ entry,
      memory.NewResolver trim mappingStr = inl entry
      ↔ mappingStr ≠ ""
        ∧ ∃ good bad,
            strings_Split mappingStr "," = good ++ entry :: bad
            ∧ Forall (wellFormedEntry trim) good
            ∧ ¬ wellFormedEntry trim entry.
Proof.
  unfold memory.NewResolver.
  destruct (String.eqb_spec mappingStr "") as [->|Hne].
  - split; [split; eauto|]. intros entry. split; [done|]. by intros [? _].
  - split; [split|intros entry; split].
    + intros [r Hr]. right.
      destruct (memory.addPairs _ _ _) as [e|m] eqn:Hm; [done|].
      by eapply addPairs_inr_inv.
    + intros [?|Hwf]; [done|]. rewrite addPairs_inr by done. eauto.
    + destruct (memory.addPairs _ _ _) as [e|m] eqn:Hm; [|done].
      intros [= ->]. split; [done|]. by eapply addPairs_inl_inv.
    + intros (_ & good & bad & -> & Hgood & Hbad).
      by rewrite addPairs_inl.
Qed.

(** X20.  The table of an accepted mapping string: empty for the empty
    string, otherwise every entry's trimmed name is bound, an entry that
    comes later replacing an earlier one of the same name; in particular
    the last entry's address is the one its name resolves to. *)
Theorem resolver_last_entry_wins (trim : string → string)
    (mappingStr : string) (r : memory.Resolver) :
  memory.NewResolver trim mappingStr = inr r →
  memory.backends r
  = (if decide (mappingStr = "") then ∅
     else list_to_map (reverse (entryOf trim <$> strings_Split mappingStr ",")))
  ∧ ∀ front entry metadata,
      mappingStr ≠ "" →
      strings_Split mappingStr "," = front ++ [entry] →
      metadata !! "database" = Some (entryOf trim entry).1 →
      memory.Resolve r metadata = Some (entryOf trim entry).2.
Proof.
  unfold memory.NewResolver. intros Hr.
  assert (memory.backends r
          = if decide (mappingStr = "") then ∅
            else list_to_map
                   (reverse (entryOf trim <$> strings_Split mappingStr ",")))
    as Hb.
  { destruct (String.eqb_spec mappingStr "") as [->|Hne].
    - by injection Hr as <-.
    - rewrite decide_False by done.
      destruct (memory.addPairs _ _ _) as [e|m] eqn:Hm; [done|].
      injection Hr as <-. cbn [memory.backends].
      rewrite addPairs_inr in Hm by (by eapply addPairs_inr_inv).
      injection Hm as <-. apply foldl_insert_list_to_map. }
  split; [done|].
  intros front entry metadata Hne Hsplit Hdb.
  unfold memory.Resolve. rewrite Hdb, Hb, decide_False by done.
  rewrite Hsplit, fmap_app, reverse_app. cbn [fmap list_fmap reverse app].
  destruct (entryOf trim entry) as [name addr]. apply lookup_insert_eq.
Qed.

Lemma resolver_last_entry_wins_witness :
  memory.backends
    (memory.mkResolver {["db1" := "host3:5432"; "db2" := "host2:5432"]})
  = (if decide ("db1=host1:5432, db2=host2:5432 ,db1 = host3:5432" = "")
     then ∅
     else list_to_map
            (reverse (entryOf trimBlanks
                        <$> strings_Split
                              "db1=host1:5432, db2=host2:5432 ,db1 = host3:5432"
                              ",")))
  ∧ ∀ front entry metadata,
      "db1=host1:5432, db2=host2:5432 ,db1 = host3:5432" ≠ "" →
      strings_Split "db1=host1:5432, db2=host2:5432 ,db1 = host3:5432" ","
      = front ++ [entry] →
      metadata !! "database" = Some (entryOf trimBlanks entry).1 →
      memory.Resolve
        (memory.mkResolver {["db1" := "host3:5432"; "db2" := "host2:5432"]})
        metadata
      = Some (entryOf trimBlanks entry).2.
Proof.
  apply (resolver_last_entry_wins trimBlanks
           "db1=host1:5432, db2=host2:5432 ,db1 = host3:5432"
           (memory.mkResolver
              {["db1" := "host3:5432"; "db2" := "host2:5432"]})).
  vm_compute. reflexivity.
Defined.

(** X21.  Format and parse.  For a non-empty list of names and addresses
    that have no [,] and no [=] and that trimming leaves as they are, the
    resolver made from the string [n1=a1,n2=a2,...] holds exactly these
    names and addresses, a later pair replacing an earlier one of the
    same name. *)
Theorem resolver_round_trip (trim : string → string)
    (kvs : list (string * string)) :
  kvs ≠ [] →
  Forall (plainEntry trim) kvs →
  memory.NewResolver trim (formatMapping kvs)
  = inr (memory.mkResolver (list_to_map (reverse kvs))).
Proof.
  intros Hne Hkvs.
  set (entries := (λ kv : string * string, kv.1 +:+ "=" +:+ kv.2) <$> kvs).
  assert (strings_Split (formatMapping kvs) "," = entries) as Hsplit.
  { apply strings_Split_Join; [by destruct kvs|].
    apply Forall_fmap. eapply Forall_impl; [done|].
    intros kv Hkv. by destruct (entryOf_plain trim kv Hkv) as (_ & _ & ?). }
  assert (formatMapping kvs ≠ "") as Hfmt.
  { intros Heq. rewrite Heq in Hsplit. unfold entries in Hsplit.
    destruct kvs as [|[[|c k] v] kvs]; done. }
  assert (Forall (wellFormedEntry trim) entries) as Hwf.
  { apply Forall_fmap. eapply Forall_impl; [done|].
    intros kv Hkv. by destruct (entryOf_plain trim kv Hkv) as (? & _). }
  assert (entryOf trim <$> entries = kvs) as Hentries.
  { unfold entries. clear -Hkvs.
    induction Hkvs as [|kv kvs Hkv _ IH]; [done|].
    cbn [fmap list_fmap] in *. rewrite IH.
    by destruct (entryOf_plain trim kv Hkv) as (_ & -> & _). }
  unfold memory.NewResolver.
  destruct (String.eqb_spec (formatMapping kvs) ""); [done|].
  rewrite Hsplit, addPairs_inr, Hentries by done.
  by rewrite foldl_insert_list_to_map.
Qed.

Lemma resolver_round_trip_witness :
  memory.NewResolver trimBlanks
    (formatMapping
       [("db1", "host1:5432"); ("db2", "host2:5432"); ("db1", "host3:5432")])
  = inr (memory.mkResolver
           (list_to_map
              (reverse [("db1", "host1:5432"); ("db2", "host2:5432");
                        ("db1", "host3:5432")]))).
Proof.
  apply (resolver_round_trip trimBlanks
           [("db1", "host1:5432"); ("db2", "host2:5432");
            ("db1", "host3:5432")]).
  - discriminate.
  - repeat (apply Forall_cons; split;
            [vm_compute; repeat split; reflexivity|]).
    apply Forall_nil. exact I.
Defined.

(** X22.  An empty entry.  When trimming leaves the empty string empty, a
    mapping string other than the empty one that has an empty entry, as
    before a leading comma, after a trailing comma or between two commas,
    is refused. *)
Theorem resolver_refuses_empty_entry (trim : string → string)
    (mappingStr : string) :
  trim "" = "" →
  mappingStr ≠ "" →
  "" ∈ strings_Split mappingStr "," →
  ∃ entry, memory.NewResolver trim mappingStr = inl entry.
Proof.
  intros Htrim Hne Hin. unfold memory.NewResolver.
  destruct (String.eqb_spec mappingStr ""); [done|].
  destruct (memory.addPairs _ _ _) as [e|m] eqn:Hm; [by exists e|].
  apply addPairs_inr_inv in Hm.
  rewrite Forall_forall in Hm. specialize (Hm "" Hin).
  unfold wellFormedEntry in Hm. by rewrite Htrim in Hm.
Qed.

Lemma resolver_refuses_empty_entry_witness :
  ∃ entry, memory.NewResolver trimBlanks "db1=host1:5432," = inl entry.
Proof.
  apply (resolver_refuses_empty_entry trimBlanks "db1=host1:5432,").
  - reflexivity.
  - discriminate.
  - vm_compute. apply list_elem_of_further, list_elem_of_here.
Defined.

(** X23.  Routing.  After a successful handshake the memory resolver looks
    up the database parameter as the client sent it (the empty name when
    the client sent none): neither the tenant parser nor the replay step
    changes what the resolver reads.  The dispatch engine stops with a
    failed resolution, before dialing, exactly when the table has no such
    name. *)
Theorem resolver_routes_on_database
    (range : nat → gmap string string → list (string * string))
    (tlsServerHandshake : Conn → string * Conn + Conn)
    (Dial : string → option Conn) (r : memory.Resolver)
    (fuel : nat) (conn : Conn) (header payload : list byte) (conn' : Conn)
    (P md : gmap string string) :
  readsStartup tlsServerHandshake conn header payload conn' P →
  Handshake range tlsServerHandshake fuel conn = Done md conn' →
  memory.Resolve r md = memory.backends r !! default "" (P !! "database")
  ∧ (handleConnection range tlsServerHandshake (memory.Resolve r) Dial
       fuel conn = ResolutionFailed
     ↔ memory.backends r !! default "" (P !! "database") = None).
Proof.
  intros Hreads Hrun.
  destruct (Handshake_Done_reads _ _ _ _ _ _ _ _ _ _ Hreads Hrun)
    as (_ & _ & Hmd).
  assert (memory.Resolve r md
          = memory.backends r !! default "" (P !! "database")) as Hres.
  { unfold memory.Resolve.
    by rewrite (Handshake_metadata_lookup range header payload P md). }
  split; [done|].
  unfold handleConnection. rewrite Hrun, Hres.
  destruct (memory.backends r !! _) as [addr|]; [|done].
  split; [|done].
  destruct (Dial addr) as [b|]; [|done].
  destruct (md !! "_raw_startup_message") as [raw|]; [|done].
  by destruct (conn_Write b _).
Qed.

Lemma resolver_routes_on_database_witness :
  memory.Resolve (memory.mkResolver {["app" := "10.0.0.1:5432"]})
    (metadataOf aliceFrame)
  = memory.backends (memory.mkResolver {["app" := "10.0.0.1:5432"]})
      !! default "" (({["user" := "alice.dep42"; "database" := "app"]}
                        : gmap string string) !! "database")
  ∧ (handleConnection rangeSorted tlsAccepts
       (memory.Resolve (memory.mkResolver {["app" := "10.0.0.1:5432"]}))
       dialAny 1 (client aliceFrame) = ResolutionFailed
     ↔ memory.backends (memory.mkResolver {["app" := "10.0.0.1:5432"]})
         !! default "" (({["user" := "alice.dep42"; "database" := "app"]}
                           : gmap string string) !! "database") = None).
Proof.
  apply (resolver_routes_on_database rangeSorted tlsAccepts dialAny
           (memory.mkResolver {["app" := "10.0.0.1:5432"]}) 1
           (client aliceFrame) (take 4 aliceFrame) (drop 4 aliceFrame)
           (client [])
           {["user" := "alice.dep42"; "database" := "app"]}
           (metadataOf aliceFrame)).
  - apply client_readsStartup; vm_compute; (reflexivity || lia).
  - vm_compute. reflexivity.
Defined.

(** ** The health server *)

(** X24.  Readiness.  After any sequence of [SetReady] calls on a new
    health server the address is the one given, /healthz answers 200 "ok",
    and /readyz answers 200 "ready" when the last call set the flag, and
    503 "not ready" when the last call cleared it or there was no call. *)
Theorem readiness_follows_last_call (addr : string) (calls : list bool) :
  api.Addr (foldl api.SetReady (api.NewHealthServer addr) calls) = addr
  ∧ api.handleHealthz (foldl api.SetReady (api.NewHealthServer addr) calls)
    = (200, "ok")
  ∧ api.handleReadyz (foldl api.SetReady (api.NewHealthServer addr) calls)
    = if default false (last calls) then (200, "ready")
      else (503, "not ready").
Proof.
  induction calls as [|call calls IH] using rev_ind; [done|].
  rewrite foldl_app, last_snoc. cbn [foldl default].
  destruct IH as (IH & _). split_and!; [done|done|].
  unfold api.handleReadyz. done.
Qed.
